(** * Verification of the interest filter of ai-news-bot

    Shallow embedding of [src/filters/interest_filter.py]: the keyword
    matchers built by [InterestFilter._compile_patterns], the scoring
    function [InterestFilter.score_post], the ranking function
    [InterestFilter.filter_posts] and [InterestFilter.get_relevant_posts];
    and of [filter_posts] of [main.py], which loads the configuration and
    ranks.

    Conventions of the embedding:
    - Python [str] values are [string]s; the model covers ASCII text.
      The patterns are [str] patterns, so the classes [\w], [\b] and the
      case folding of [re.IGNORECASE] are the Unicode ones; on ASCII text
      and keywords they are the ASCII ones of [Re], and every statement
      about what the matchers find assumes such text ([Re.ascii_text]).
    - JSON numbers are integers ([Z]).
    - Python dictionaries with string keys are [gmap string _].
    - Exceptions are values of [exn], carried by the [result] monad. *)

From Stdlib Require Import ZArith Ascii String List Bool Sorted Lia.
From stdpp Require Import base gmap strings list sorting.

Local Open Scope string_scope.
Local Open Scope Z_scope.
Local Open Scope list_scope.

(** ** Exceptions *)

Inductive exn :=
| KeyError (key : string)
| TypeError
| OSError
| JSONDecodeError.

Inductive result (A : Type) :=
| Ok (a : A)
| Raise (e : exn).
Arguments Ok {A} a.
Arguments Raise {A} e.

#[global] Instance result_ret : MRet result := fun _ a => Ok a.
#[global] Instance result_bind : MBind result := fun _ _ k r =>
  match r with
  | Ok a => k a
  | Raise e => Raise e
  end.

#[global] Instance result_fmap : FMap result := fun _ _ f r =>
  match r with
  | Ok a => Ok (f a)
  | Raise e => Raise e
  end.

Definition returns {A} (r : result A) : Prop := exists a, r = Ok a.

(** [d[key]] on a dictionary: [KeyError] when the key is absent. *)
Definition getitem {V} (d : gmap string V) (key : string) : result V :=
  match d !! key with
  | Some v => Ok v
  | None => Raise (KeyError key)
  end.

(** ** The [re] matchers built from keyword lists *)

Module Re.

(** The texts the model covers: every character is in the ASCII range. *)
Definition is_ascii (c : ascii) : bool := Nat.ltb (nat_of_ascii c) 128.

Fixpoint ascii_text (s : string) : bool :=
  match s with
  | EmptyString => true
  | String c s' => is_ascii c && ascii_text s'
  end.

(** [\w] on an ASCII character. *)
Definition is_word (c : ascii) : bool :=
  let n := nat_of_ascii c in
  (Nat.leb 48 n && Nat.leb n 57) || (Nat.leb 65 n && Nat.leb n 90)
  || (Nat.leb 97 n && Nat.leb n 122) || Nat.eqb n 95.

(** Case folding used by [re.IGNORECASE], on an ASCII character. *)
Definition lower (c : ascii) : ascii :=
  let n := nat_of_ascii c in
  if Nat.leb 65 n && Nat.leb n 90 then ascii_of_nat (n + 32) else c.

Fixpoint fold_case (s : string) : string :=
  match s with
  | EmptyString => EmptyString
  | String c s' => String (lower c) (fold_case s')
  end.

Definition word_opt (o : option ascii) : bool :=
  match o with
  | Some c => is_word c
  | None => false
  end.

(** [\b] between the character before the position and the one after. *)
Definition boundary (prev next : option ascii) : bool :=
  xorb (word_opt prev) (word_opt next).

Definition head (s : string) : option ascii :=
  match s with
  | EmptyString => None
  | String c _ => Some c
  end.

(** Last character read once [m] has been consumed after [prev]. *)
Fixpoint last_of (prev : option ascii) (m : string) : option ascii :=
  match m with
  | EmptyString => prev
  | String c m' => last_of (Some c) m'
  end.

(** [re.escape(kw)] at the start of [text]: the matched text, in the
    spelling of [text], and what follows it. *)
Fixpoint literal (kw text : string) : option (string * string) :=
  match kw with
  | EmptyString => Some (EmptyString, text)
  | String k kw' =>
      match text with
      | EmptyString => None
      | String c text' =>
          if Ascii.eqb (lower k) (lower c) then
            match literal kw' text' with
            | Some (m, r) => Some (String c m, r)
            | None => None
            end
          else None
      end
  end.

(** One alternative of the compiled pattern: [Word kw] is
    [r'\b' + re.escape(kw) + r'\b']; [Eps] is the empty pattern, which is
    what ['|'.join([])] compiles to. *)
Inductive branch :=
| Eps
| Word (kw : string).

Definition pattern := list branch.

Definition compile (keywords : list string) : pattern :=
  match keywords with
  | [] => [Eps]
  | _ => map Word keywords
  end.

Definition branch_match (b : branch) (prev : option ascii) (text : string)
  : option (string * string) :=
  match b with
  | Eps => Some (EmptyString, text)
  | Word kw =>
      if boundary prev (head text) then
        match literal kw text with
        | Some (m, r) =>
            if boundary (last_of prev m) (head r) then Some (m, r) else None
        | None => None
        end
      else None
  end.

Definition nonempty (s : string) : bool :=
  match s with
  | EmptyString => false
  | String _ _ => true
  end.

(** The alternatives are tried in order; when [allow_empty] is off an
    empty match is refused and the next alternative is tried. *)
Fixpoint first_match (allow_empty : bool) (pat : pattern)
  (prev : option ascii) (text : string) : option (string * string) :=
  match pat with
  | [] => None
  | b :: pat' =>
      match branch_match b prev text with
      | Some (m, r) =>
          if allow_empty || nonempty m then Some (m, r)
          else first_match allow_empty pat' prev text
      | None => first_match allow_empty pat' prev text
      end
  end.

Fixpoint search_from (pat : pattern) (prev : option ascii) (text : string)
  : bool :=
  match first_match true pat prev text with
  | Some _ => true
  | None =>
      match text with
      | EmptyString => false
      | String c text' => search_from pat (Some c) text'
      end
  end.

(** [pattern.search(text)], as a truth value. *)
Definition search (pat : pattern) (text : string) : bool :=
  search_from pat None text.

(** The matches that start at one position, and how many characters
    after the next one the scan jumps over.  After an empty match the
    scan looks once more at the same position for a non-empty one. *)
Definition matches_here (pat : pattern) (prev : option ascii) (text : string)
  : list string * nat :=
  match first_match true pat prev text with
  | None => ([], 0%nat)
  | Some (EmptyString, _) =>
      match first_match false pat prev text with
      | None => ([EmptyString], 0%nat)
      | Some (m, _) => ([EmptyString; m], Nat.pred (String.length m))
      end
  | Some (m, _) => ([m], Nat.pred (String.length m))
  end.

Fixpoint findall_from (pat : pattern) (prev : option ascii) (text : string)
  (skip : nat) : list string :=
  match skip with
  | S k =>
      match text with
      | EmptyString => []
      | String c text' => findall_from pat (Some c) text' k
      end
  | O =>
      let '(found, adv) := matches_here pat prev text in
      match text with
      | EmptyString => found
      | String c text' => found ++ findall_from pat (Some c) text' adv
      end
  end.

(** [pattern.findall(text)]: the non-overlapping matches, left to right. *)
Definition findall (pat : pattern) (text : string) : list string :=
  findall_from pat None text 0.

End Re.

(** ** Python values and loops *)

(** One entry of [matches['matched_topics']]. *)
Record matched_topic := {
  mt_topic : string;
  mt_priority : string;
  mt_score : Z
}.

(** The [matches] dictionary of [score_post]. *)
Record match_details := {
  matched_topics : list matched_topic;
  matched_keywords : list string;
  exclude_matches : list string;
  score_breakdown : gmap string Z
}.

(** Values stored in a post. *)
Inductive value :=
| VNone
| VBool (b : bool)
| VNum (n : Z)
| VStr (s : string)
| VList (l : list string)
| VMatches (m : match_details).

(** [d.get(key, default)] *)
Definition get (d : gmap string value) (key : string) (default : value)
  : value :=
  match d !! key with
  | Some v => v
  | None => default
  end.

(** [a + b] where [a] is known to be a [str]. *)
Definition str_add (a : string) (b : value) : result string :=
  match b with
  | VStr s => Ok (a +:+ s)
  | _ => Raise TypeError
  end.

(** [a + b] on values, as far as posts need it: only [str + str] is
    defined, every other pairing with a [str] raises [TypeError]. *)
Definition add (a : value) (b : string) : result string :=
  match a with
  | VStr s => Ok (s +:+ b)
  | _ => Raise TypeError
  end.

Fixpoint join (sep : string) (l : list string) : string :=
  match l with
  | [] => ""
  | [s] => s
  | s :: l' => s +:+ sep +:+ join sep l'
  end.

Fixpoint chars (s : string) : list string :=
  match s with
  | EmptyString => []
  | String c s' => String c EmptyString :: chars s'
  end.

(** [sep.join(v)]: [v] is iterated; a [str] yields its characters. *)
Definition join_value (sep : string) (v : value) : result string :=
  match v with
  | VList l => Ok (join sep l)
  | VStr s => Ok (join sep (chars s))
  | _ => Raise TypeError
  end.

(** [pattern.search(v)] and [pattern.findall(v)] on a value. *)
Definition findall_value (pat : Re.pattern) (v : value)
  : result (list string) :=
  match v with
  | VStr s => Ok (Re.findall pat s)
  | _ => Raise TypeError
  end.

(** [len(set(l))] *)
Definition distinct_count (l : list string) : Z :=
  Z.of_nat (length (remove_dups l)).

(** [list(set(l))]: the distinct elements of [l], each once.  The order
    in which a set is listed is not fixed by the language (for strings it
    changes with the hash seed of the process), so it is a parameter of
    the model: any listing of the distinct elements. *)
Class SetOrder := {
  list_set : list string -> list string;
  list_set_perm : forall l, list_set l ≡ₚ remove_dups l
}.

(** The listing by first occurrence, used to run the examples. *)
#[global] Instance first_seen : SetOrder :=
  {| list_set := remove_dups; list_set_perm := fun l => Permutation_refl _ |}.

(** Truth value of a list. *)
Definition truthy {A} (l : list A) : bool :=
  match l with
  | [] => false
  | _ :: _ => true
  end.

(** [for x in xs: body], threading the local variables [s]. *)
Fixpoint for_each {A S} (xs : list A) (body : S -> A -> result S) (s : S)
  : result S :=
  match xs with
  | [] => Ok s
  | x :: xs' => s' ← body s x; for_each xs' body s'
  end.

(** A loop that appends one computed item per element. *)
Fixpoint collect {A B} (f : A -> result B) (xs : list A) : result (list B) :=
  match xs with
  | [] => Ok []
  | x :: xs' => y ← f x; ys ← collect f xs'; Ok (y :: ys)
  end.

(** ** Configuration *)

(** A topic dictionary of the configuration; [None] is an absent key. *)
Record raw_topic := {
  rt_topic : option string;
  rt_priority : option string;
  rt_keywords : option (list string)
}.

(** The parsed configuration file, when it follows the schema: a field
    that is present has the type the schema gives it.  [Json] below takes
    the file as [json.load] returns it, whatever it holds. *)
Record raw_config := {
  rc_interests : option (list raw_topic);
  rc_exclude_topics : option (list raw_topic);
  rc_scoring : option (gmap string Z)
}.

(** What [open] and [json.load] make of the configuration file. *)
Inductive config_source :=
| Unreadable
| Unparsable
| Parsed (c : raw_config).

(** A topic dictionary once [_compile_patterns] has stored ['pattern']. *)
Record topic := {
  topic_name : option string;
  priority : option string;
  keywords : list string;
  pattern : Re.pattern
}.

Record InterestFilter := {
  interests : list topic;
  exclude_topics : list topic;
  scoring : gmap string Z
}.

(** [d[key]] on a topic or configuration dictionary. *)
Definition item {A} (field : option A) (key : string) : result A :=
  match field with
  | Some a => Ok a
  | None => Raise (KeyError key)
  end.

Definition compile_topic (t : raw_topic) : result topic :=
  kws ← item (rt_keywords t) "keywords";
  Ok {| topic_name := rt_topic t;
        priority := rt_priority t;
        keywords := kws;
        pattern := Re.compile kws |}.

Definition _compile_patterns (interests exclude_topics : list raw_topic)
  : result (list topic * list topic) :=
  ins ← collect compile_topic interests;
  exs ← collect compile_topic exclude_topics;
  Ok (ins, exs).

Definition __init__ (config_file : config_source) : result InterestFilter :=
  match config_file with
  | Unreadable => Raise OSError
  | Unparsable => Raise JSONDecodeError
  | Parsed config =>
      interests ← item (rc_interests config) "interests";
      let exclude_topics := default [] (rc_exclude_topics config) in
      scoring ← item (rc_scoring config) "scoring";
      '(ins, exs) ← _compile_patterns interests exclude_topics;
      Ok {| interests := ins; exclude_topics := exs; scoring := scoring |}
  end.

(** ** The configuration file as [json.load] returns it *)

Module Json.

#[local] Unset Elimination Schemes.

(** A parsed JSON text.  An object lists its keys in the order of the
    file; [json.load] leaves no key twice. *)
Inductive json :=
| JNull
| JBool (b : bool)
| JNum (n : Z)
| JStr (s : string)
| JList (l : list json)
| JObj (d : list (string * json)).

#[local] Set Elimination Schemes.

(** What [open] and [json.load] make of the configuration file. *)
Inductive source :=
| Unreadable
| Unparsable
| Parsed (root : json).

(** The value stored under a key of an object. *)
Fixpoint lookup (d : list (string * json)) (key : string) : option json :=
  match d with
  | [] => None
  | (k, v) :: d' => if String.eqb k key then Some v else lookup d' key
  end.

(** [for x in v]: a list gives its elements, a string its characters and
    an object its keys; nothing else can be iterated. *)
Definition iter (v : json) : result (list json) :=
  match v with
  | JList l => Ok l
  | JStr s => Ok (map JStr (chars s))
  | JObj d => Ok (map (fun kv => JStr (fst kv)) d)
  | _ => Raise TypeError
  end.

(** [re.escape(kw)] accepts a string only. *)
Definition escape (kw : json) : result string :=
  match kw with
  | JStr s => Ok s
  | _ => Raise TypeError
  end.

(** A topic dictionary once [_compile_patterns] has stored ['pattern']. *)
Record topic := {
  fields : list (string * json);
  pattern : Re.pattern
}.

Record InterestFilter := {
  interests : list topic;
  exclude_topics : list topic;
  scoring : json
}.

(** Body of the two loops of [_compile_patterns]: [interest['keywords']]
    needs an object with that key, the comprehension iterates the value
    and escapes each item. *)
Definition compile_topic (interest : json) : result topic :=
  match interest with
  | JObj d =>
      keywords ← item (lookup d "keywords") "keywords";
      kws ← iter keywords;
      escaped ← collect escape kws;
      Ok {| fields := d; pattern := Re.compile escaped |}
  | _ => Raise TypeError
  end.

Definition _compile_patterns (interests exclude_topics : json)
  : result (list topic * list topic) :=
  its ← iter interests;
  ins ← collect compile_topic its;
  ets ← iter exclude_topics;
  exs ← collect compile_topic ets;
  Ok (ins, exs).

Definition __init__ (config_file : source) : result InterestFilter :=
  match config_file with
  | Unreadable => Raise OSError
  | Unparsable => Raise JSONDecodeError
  | Parsed (JObj config) =>
      interests ← item (lookup config "interests") "interests";
      let exclude_topics := default (JList []) (lookup config "exclude_topics") in
      scoring ← item (lookup config "scoring") "scoring";
      '(ins, exs) ← _compile_patterns interests exclude_topics;
      Ok {| interests := ins; exclude_topics := exs; scoring := scoring |}
  | Parsed _ => Raise TypeError
  end.

(** *** What the loader cannot use *)

Definition iterable (v : json) : bool :=
  match v with
  | JList _ | JStr _ | JObj _ => true
  | _ => false
  end.

(** The items a loop over [v] sees. *)
Definition items (v : json) : list json :=
  match v with
  | JList l => l
  | JStr s => map JStr (chars s)
  | JObj d => map (fun kv => JStr (fst kv)) d
  | _ => []
  end.

Definition is_str (v : json) : bool :=
  match v with
  | JStr _ => true
  | _ => false
  end.

(** A topic that cannot be compiled: it is not an object, or it has no
    ['keywords'] entry, or that entry cannot be iterated, or one of its
    items is not a string. *)
Definition unusable_topic (t : json) : Prop :=
  match t with
  | JObj d =>
      match lookup d "keywords" with
      | None => True
      | Some keywords =>
          iterable keywords = false
          \/ exists kw, kw ∈ items keywords /\ is_str kw = false
      end
  | _ => True
  end.

(** A value of ['interests'] or ['exclude_topics'] the loader fails on. *)
Definition unusable_topics (v : json) : Prop :=
  iterable v = false \/ exists t, t ∈ items v /\ unusable_topic t.

(** A parsed file the loader fails on. *)
Definition unloadable (root : json) : Prop :=
  match root with
  | JObj config =>
      lookup config "interests" = None
      \/ lookup config "scoring" = None
      \/ (exists v, lookup config "interests" = Some v /\ unusable_topics v)
      \/ (exists v, lookup config "exclude_topics" = Some v
                    /\ unusable_topics v)
  | _ => True
  end.

End Json.

(** *** The files that follow the schema

    A typed configuration, written as the JSON value it is parsed from. *)

(** The entry of an object for a field that may be absent. *)
Definition json_entry (key : string) (o : option Json.json)
  : list (string * Json.json) :=
  match o with
  | Some v => [(key, v)]
  | None => []
  end.

Definition json_of_topic (t : raw_topic) : Json.json :=
  Json.JObj
    (json_entry "topic" (Json.JStr <$> rt_topic t)
     ++ json_entry "priority" (Json.JStr <$> rt_priority t)
     ++ json_entry "keywords"
          ((fun kws => Json.JList (map Json.JStr kws)) <$> rt_keywords t)).

Definition json_of_scoring (m : gmap string Z) : Json.json :=
  Json.JObj (map (fun kn => (fst kn, Json.JNum (snd kn))) (map_to_list m)).

Definition json_config_fields (c : raw_config) : list (string * Json.json) :=
  json_entry "interests"
    ((fun l => Json.JList (map json_of_topic l)) <$> rc_interests c)
  ++ json_entry "exclude_topics"
       ((fun l => Json.JList (map json_of_topic l)) <$> rc_exclude_topics c)
  ++ json_entry "scoring" (json_of_scoring <$> rc_scoring c).

Definition json_of_config (c : raw_config) : Json.json :=
  Json.JObj (json_config_fields c).

Definition json_of_source (s : config_source) : Json.source :=
  match s with
  | Unreadable => Json.Unreadable
  | Unparsable => Json.Unparsable
  | Parsed c => Json.Parsed (json_of_config c)
  end.

(** A typed topic as the dictionary it stands for. *)
Definition topic_object (t : topic) : Json.topic :=
  {| Json.fields :=
       json_entry "topic" (Json.JStr <$> topic_name t)
       ++ json_entry "priority" (Json.JStr <$> priority t)
       ++ json_entry "keywords"
            (Some (Json.JList (map Json.JStr (keywords t))));
     Json.pattern := pattern t |}.

(** A typed filter as the untyped one it stands for. *)
Definition filter_object (self : InterestFilter) : Json.InterestFilter :=
  {| Json.interests := map topic_object (interests self);
     Json.exclude_topics := map topic_object (exclude_topics self);
     Json.scoring := json_of_scoring (scoring self) |}.

(** ** Scoring *)

Section Scoring.

Context {order : SetOrder}.
Variable self : InterestFilter.

Definition _get_priority_weight (priority : string) : result Z :=
  high ← getitem (scoring self) "high_priority_weight";
  medium ← getitem (scoring self) "medium_priority_weight";
  low ← getitem (scoring self) "low_priority_weight";
  Ok (if String.eqb priority "high" then high
      else if String.eqb priority "medium" then medium
      else if String.eqb priority "low" then low
      else 1).

(** Body of the loop over [self.exclude_topics]; the local variables
    are [score] and [matches]. *)
Definition exclusion_step (title summary : value)
  (st : Z * match_details) (exclude : topic) : result (Z * match_details) :=
  let '(score, matches) := st in
  t ← add title " ";
  text ← str_add t summary;
  if Re.search (pattern exclude) text then
    name ← item (topic_name exclude) "topic";
    penalty ← getitem (scoring self) "exclude_penalty";
    Ok (score + penalty,
        {| matched_topics := matched_topics matches;
           matched_keywords := matched_keywords matches;
           exclude_matches := exclude_matches matches ++ [name];
           score_breakdown := score_breakdown matches |})
  else Ok (score, matches).

(** The three field checks of one interest: the local variables are
    [topic_score] and [topic_matches]. *)
Definition topic_fields (title summary : value) (key_points : string)
  (significance : value) (interest : topic) : result (Z * list string) :=
  let topic_score := 0 in
  let topic_matches : list string := [] in
  title_matches ← findall_value (pattern interest) title;
  '(topic_score, topic_matches) ←
    (if truthy title_matches then
       p ← item (priority interest) "priority";
       weight ← _get_priority_weight p;
       m ← getitem (scoring self) "title_match_multiplier";
       let title_score := distinct_count title_matches * weight * m in
       Ok (topic_score + title_score, topic_matches ++ title_matches)
     else Ok (topic_score, topic_matches));
  summary_matches ← findall_value (pattern interest) summary;
  '(topic_score, topic_matches) ←
    (if truthy summary_matches then
       p ← item (priority interest) "priority";
       weight ← _get_priority_weight p;
       m ← getitem (scoring self) "summary_match_multiplier";
       let summary_score := distinct_count summary_matches * weight * m in
       Ok (topic_score + summary_score, topic_matches ++ summary_matches)
     else Ok (topic_score, topic_matches));
  other_text ← str_add (key_points +:+ " ") significance;
  let other_matches := Re.findall (pattern interest) other_text in
  (if truthy other_matches then
     p ← item (priority interest) "priority";
     weight ← _get_priority_weight p;
     let other_score := distinct_count other_matches * weight in
     Ok (topic_score + other_score, topic_matches ++ other_matches)
   else Ok (topic_score, topic_matches)).

(** Body of the loop over [self.interests]. *)
Definition interest_step (title summary : value) (key_points : string)
  (significance : value) (st : Z * match_details) (interest : topic)
  : result (Z * match_details) :=
  let '(score, matches) := st in
  '(topic_score, topic_matches) ←
    topic_fields title summary key_points significance interest;
  if truthy topic_matches then
    name ← item (topic_name interest) "topic";
    p ← item (priority interest) "priority";
    Ok (score + topic_score,
        {| matched_topics :=
             matched_topics matches
             ++ [{| mt_topic := name; mt_priority := p;
                    mt_score := topic_score |}];
           matched_keywords :=
             matched_keywords matches ++ list_set topic_matches;
           exclude_matches := exclude_matches matches;
           score_breakdown := <[name := topic_score]> (score_breakdown matches) |})
  else Ok (score, matches).

Definition score_post (post : gmap string value) : result (Z * match_details) :=
  let score := 0 in
  let matches :=
    {| matched_topics := []; matched_keywords := [];
       exclude_matches := []; score_breakdown := ∅ |} in
  let title := get post "title" (VStr "") in
  let summary := get post "ai_summary" (VStr "") in
  key_points ← join_value " " (get post "key_points" (VList []));
  let significance := get post "significance" (VStr "") in
  '(score, matches) ←
    for_each (exclude_topics self) (exclusion_step title summary)
      (score, matches);
  penalty ← getitem (scoring self) "exclude_penalty";
  if score <=? penalty then
    Ok (score,
        {| matched_topics := matched_topics matches;
           matched_keywords := matched_keywords matches;
           exclude_matches := exclude_matches matches;
           score_breakdown :=
             <["exclusion_penalty" := score]> (score_breakdown matches) |})
  else
    for_each (interests self)
      (interest_step title summary key_points significance) (score, matches).

(** ** Ranking *)

(** The dictionary [{**post, 'relevance_score': .., 'relevance_matches': ..,
    'is_relevant': ..}]. *)
Definition enhanced_post (post : gmap string value) : result (gmap string value) :=
  '(score, matches) ← score_post post;
  threshold ← getitem (scoring self) "minimum_score_threshold";
  Ok (<["is_relevant" := VBool (threshold <=? score)]>
        (<["relevance_matches" := VMatches matches]>
           (<["relevance_score" := VNum score]> post))).

End Scoring.

(** The sort key [x['relevance_score']]. *)
Definition relevance_score_key (x : gmap string value) : result Z :=
  v ← getitem x "relevance_score";
  match v with
  | VNum n => Ok n
  | _ => Raise TypeError
  end.

(** [list.sort(key=.., reverse=True)] on the list decorated with its
    keys: the sort is stable, so an element goes in front of the first
    one whose key is not greater than its own. *)
Fixpoint insert_reverse {A} (x : Z * A) (l : list (Z * A)) : list (Z * A) :=
  match l with
  | [] => [x]
  | y :: l' =>
      if fst x <? fst y then y :: insert_reverse x l'
      else x :: y :: l'
  end.

Fixpoint sort_reverse {A} (l : list (Z * A)) : list (Z * A) :=
  match l with
  | [] => []
  | x :: l' => insert_reverse x (sort_reverse l')
  end.

Definition filter_posts {order : SetOrder} (self : InterestFilter)
  (posts : list (gmap string value)) : result (list (gmap string value)) :=
  filtered_posts ← collect (enhanced_post self) posts;
  keys ← collect relevance_score_key filtered_posts;
  Ok (map snd (sort_reverse (zip keys filtered_posts))).

(** ** Posts as objects

    The callers hand [filter_posts] dictionaries they keep using, so the
    same function is also given on a store of dictionaries: a post is an
    address, reading it is [deref], and the dictionary display
    [{**post, ...}] allocates a new dictionary. *)

Definition alloc (h : gmap positive (gmap string value))
  (d : gmap string value) : positive * gmap positive (gmap string value) :=
  let l := fresh (dom h) in (l, <[l := d]> h).

Definition deref (h : gmap positive (gmap string value)) (l : positive)
  : gmap string value :=
  default ∅ (h !! l).

(** Body of the loop of [filter_posts]; the local list [filtered_posts]
    holds the addresses of the new dictionaries. *)
Definition enhance_step {order : SetOrder} (self : InterestFilter)
  (st : gmap positive (gmap string value) * list positive) (post : positive)
  : result (gmap positive (gmap string value) * list positive) :=
  let '(h, filtered_posts) := st in
  enhanced ← enhanced_post self (deref h post);
  let '(l, h') := alloc h enhanced in
  Ok (h', filtered_posts ++ [l]).

Definition filter_posts_objects {order : SetOrder} (self : InterestFilter)
  (h : gmap positive (gmap string value)) (posts : list positive)
  : result (gmap positive (gmap string value) * list positive) :=
  '(h', filtered_posts) ← for_each posts (enhance_step self) (h, []);
  keys ← collect (fun l => relevance_score_key (deref h' l)) filtered_posts;
  Ok (h', map snd (sort_reverse (zip keys filtered_posts))).

(** [a] is [post] with the three relevance keys set from its score. *)
Definition annotates {order : SetOrder} (self : InterestFilter) (post a : gmap string value)
  : Prop :=
  (forall key,
     key <> "relevance_score" -> key <> "relevance_matches" ->
     key <> "is_relevant" -> a !! key = post !! key)
  /\ exists score matches threshold,
       score_post self post = Ok (score, matches)
       /\ scoring self !! "minimum_score_threshold" = Some threshold
       /\ a !! "relevance_score" = Some (VNum score)
       /\ a !! "relevance_matches" = Some (VMatches matches)
       /\ a !! "is_relevant" = Some (VBool (threshold <=? score)).

(** Truth value of a Python value, as [if v] tests it. *)
Definition truth (v : value) : bool :=
  match v with
  | VNone => false
  | VBool b => b
  | VNum n => negb (n =? 0)
  | VStr s => negb (String.eqb s "")
  | VList l => truthy l
  | VMatches _ => true
  end.

(** The comprehension [[p for p in posts if p['is_relevant']]]. *)
Fixpoint select_relevant (posts : list (gmap string value))
  : result (list (gmap string value)) :=
  match posts with
  | [] => Ok []
  | p :: posts' =>
      flag ← getitem p "is_relevant";
      rest ← select_relevant posts';
      Ok (if truth flag then p :: rest else rest)
  end.

Definition get_relevant_posts {order : SetOrder} (self : InterestFilter)
  (posts : list (gmap string value)) : result (list (gmap string value)) :=
  filtered ← filter_posts self posts;
  select_relevant filtered.

(** ** The entry point of [main.py]

    [filter_posts(posts, config_file)] of [main.py]: [config_file] stands
    for what [open] and [json.load] make of the file; beside the returned
    list, the two numbers are those of the message the function prints,
    [len(relevant)] and [len(posts)]. *)
Definition main_filter_posts {order : SetOrder}
  (posts : list (gmap string value))
  (config_file : config_source)
  : result (list (gmap string value) * (nat * nat)) :=
  filter ← __init__ config_file;
  filtered ← filter_posts filter posts;
  relevant ← select_relevant filtered;
  Ok (filtered, (length relevant, length posts)).

(** ** Test data *)

Module Examples.

Definition robotics : raw_topic :=
  {| rt_topic := Some "robotics"; rt_priority := Some "high";
     rt_keywords := Some ["robot"; "robotics"] |}.

Definition celebrity : raw_topic :=
  {| rt_topic := Some "celebrity"; rt_priority := None;
     rt_keywords := Some ["kardashian"] |}.

Definition the_scoring : gmap string Z :=
  <["exclude_penalty" := -50]>
  (<["title_match_multiplier" := 2]>
  (<["summary_match_multiplier" := 1]>
  (<["high_priority_weight" := 5]>
  (<["medium_priority_weight" := 3]>
  (<["low_priority_weight" := 1]>
  (<["minimum_score_threshold" := 3]> ∅)))))).

Definition config : raw_config :=
  {| rc_interests := Some [robotics];
     rc_exclude_topics := Some [celebrity];
     rc_scoring := Some the_scoring |}.

Definition loaded : InterestFilter :=
  {| interests :=
       [{| topic_name := Some "robotics"; priority := Some "high";
           keywords := ["robot"; "robotics"];
           pattern := Re.compile ["robot"; "robotics"] |}];
     exclude_topics :=
       [{| topic_name := Some "celebrity"; priority := None;
           keywords := ["kardashian"];
           pattern := Re.compile ["kardashian"] |}];
     scoring := the_scoring |}.

Definition robot_post : gmap string value :=
  <["title" := VStr "New robot unveiled"]> (<["ai_summary" := VStr ""]> ∅).

Definition kardashian_post : gmap string value :=
  <["title" := VStr "Kardashian launches robot startup"]> ∅.

Definition crypto : raw_topic :=
  {| rt_topic := Some "crypto"; rt_priority := None;
     rt_keywords := Some ["bitcoin"] |}.

Definition compiled (t : raw_topic) (kws : list string) : topic :=
  {| topic_name := rt_topic t; priority := rt_priority t;
     keywords := kws; pattern := Re.compile kws |}.

(** Two exclusion topics. *)
Definition two_exclusions : InterestFilter :=
  {| interests := [compiled robotics ["robot"; "robotics"]];
     exclude_topics :=
       [compiled celebrity ["kardashian"]; compiled crypto ["bitcoin"]];
     scoring := the_scoring |}.

Definition kardashian_bitcoin_post : gmap string value :=
  <["title" := VStr "Kardashian buys bitcoin"]>
  (<["ai_summary" := VStr "A robot was involved"]> ∅).

(** The configuration [loaded] with every weight and multiplier at 0. *)
Definition zero_weights : InterestFilter :=
  {| interests := interests loaded;
     exclude_topics := exclude_topics loaded;
     scoring :=
       <["exclude_penalty" := -50]>
       (<["title_match_multiplier" := 0]>
       (<["summary_match_multiplier" := 0]>
       (<["high_priority_weight" := 0]>
       (<["medium_priority_weight" := 0]>
       (<["low_priority_weight" := 0]>
       (<["minimum_score_threshold" := 3]> ∅)))))) |}.

Definition hardware : raw_topic :=
  {| rt_topic := Some "hardware"; rt_priority := Some "low";
     rt_keywords := Some ["chip"; "robot"] |}.

(** Two interests that share the keyword ["robot"]. *)
Definition shared_keyword : InterestFilter :=
  {| interests :=
       [compiled robotics ["robot"; "robotics"];
        compiled hardware ["chip"; "robot"]];
     exclude_topics := [];
     scoring := the_scoring |}.

Definition robot_matches : match_details :=
  Eval vm_compute in
    match score_post loaded robot_post with
    | Ok (_, m) => m
    | Raise _ =>
        {| matched_topics := []; matched_keywords := [];
           exclude_matches := []; score_breakdown := ∅ |}
    end.

Definition single_post : gmap string value :=
  <["title" := VStr "robot"]> ∅.

Definition repeated_post : gmap string value :=
  <["title" := VStr "robot robot robot"]> ∅.

Definition mixed_case_post : gmap string value :=
  <["title" := VStr "robot Robot ROBOT"]> ∅.

(** A configuration the spec calls invalid: an empty keyword list, a
    priority outside high/medium/low and no scoring constant at all. *)
Definition lax_config : raw_config :=
  {| rc_interests :=
       Some [{| rt_topic := Some "misc"; rt_priority := Some "urgent";
                rt_keywords := Some [] |}];
     rc_exclude_topics := None;
     rc_scoring := Some ∅ |}.

Definition robot_post_2 : gmap string value :=
  <["title" := VStr "Another robot"]> (<["link" := VStr "https://example.com/2"]> ∅).

(** Two posts of equal score around an excluded one. *)
Definition three_posts : list (gmap string value) :=
  [kardashian_post; robot_post; robot_post_2].

Definition ranked : list (gmap string value) :=
  Eval vm_compute in
    match filter_posts loaded three_posts with
    | Ok out => out
    | Raise _ => []
    end.

Definition top : gmap string value := Eval vm_compute in default ∅ (head ranked).

(** A post that already carries a relevance score. *)
Definition rescored_post : gmap string value :=
  <["relevance_score" := VNum 99]> robot_post.

Definition memory : gmap positive (gmap string value) :=
  <[1%positive := kardashian_post]>
  (<[2%positive := rescored_post]>
  (<[3%positive := robot_post_2]> ∅)).

Definition memory_after : gmap positive (gmap string value) :=
  Eval vm_compute in
    match filter_posts_objects loaded memory [1; 2; 3]%positive with
    | Ok (h, _) => h
    | Raise _ => ∅
    end.

Definition ranked_objects : list positive :=
  Eval vm_compute in
    match filter_posts_objects loaded memory [1; 2; 3]%positive with
    | Ok (_, out) => out
    | Raise _ => []
    end.

End Examples.

(** Every topic dictionary of a parsed configuration. *)
Definition topics_of (config : raw_config) : list raw_topic :=
  default [] (rc_interests config) ++ default [] (rc_exclude_topics config).

(** ** Documents and configurations the engine is meant for *)

(** The text of a field, with the substitution [post.get(key, '')]. *)
Definition text_field (post : gmap string value) (key : string) : string :=
  match post !! key with
  | Some (VStr s) => s
  | _ => ""
  end.

Definition list_field (post : gmap string value) (key : string)
  : list string :=
  match post !! key with
  | Some (VList l) => l
  | _ => []
  end.

Definition is_text (o : option value) : bool :=
  match o with
  | None | Some (VStr _) => true
  | Some _ => false
  end.

Definition is_text_list (o : option value) : bool :=
  match o with
  | None | Some (VList _) => true
  | Some _ => false
  end.

(** A document: each of the four scored fields is absent or of its type. *)
Definition document_ok (post : gmap string value) : bool :=
  is_text (post !! "title") && is_text (post !! "ai_summary")
  && is_text_list (post !! "key_points") && is_text (post !! "significance").

(** [title + ' ' + summary] *)
Definition exclusion_text (post : gmap string value) : string :=
  (text_field post "title" +:+ " ") +:+ text_field post "ai_summary".

(** [key_points + ' ' + significance] *)
Definition other_text (post : gmap string value) : string :=
  (join " " (list_field post "key_points") +:+ " ")
  +:+ text_field post "significance".

(** A document in which every absent field holds its empty value. *)
Definition with_defaults (post : gmap string value) : gmap string value :=
  <["title" := get post "title" (VStr "")]>
  (<["ai_summary" := get post "ai_summary" (VStr "")]>
  (<["key_points" := get post "key_points" (VList [])]>
  (<["significance" := get post "significance" (VStr "")]> post))).

Definition is_some {A} (o : option A) : bool :=
  match o with
  | Some _ => true
  | None => false
  end.

(** The exclusion topics that fire on a document. *)
Definition exclusion_hits (self : InterestFilter) (post : gmap string value)
  : list topic :=
  List.filter (fun t => Re.search (pattern t) (exclusion_text post))
    (exclude_topics self).

(** Everything an interest matches in a document: title, then summary,
    then key points and significance. *)
Definition topic_matches_of (post : gmap string value) (t : topic)
  : list string :=
  Re.findall (pattern t) (text_field post "title")
  ++ Re.findall (pattern t) (text_field post "ai_summary")
  ++ Re.findall (pattern t) (other_text post).

(** The interest has a keyword match in some field of the document. *)
Definition has_match (post : gmap string value) (t : topic) : bool :=
  Re.search (pattern t) (text_field post "title")
  || Re.search (pattern t) (text_field post "ai_summary")
  || Re.search (pattern t) (other_text post).

(** The shape shared by the three field checks of [topic_fields]: when
    [found] is not empty the priority weight is looked up, the field's
    score is added and the matches are appended. *)
Definition field_check (self : InterestFilter) (interest : topic)
  (found : list string) (field_score : Z -> result Z)
  (acc : Z * list string) : result (Z * list string) :=
  if truthy found then
    p ← item (priority interest) "priority";
    weight ← _get_priority_weight self p;
    s ← field_score weight;
    Ok (fst acc + s, snd acc ++ found)
  else Ok acc.

(** What the scoring of a topic depends on: its score and whether
    anything matched. *)
Definition outcome (r : result (Z * list string)) : result (Z * bool) :=
  (fun acc => (fst acc, truthy (snd acc))) <$> r.

(** Two running totals that carry the same score and are both empty or
    both not. *)
Definition agree (acc acc' : Z * list string) : Prop :=
  fst acc = fst acc' /\ truthy (snd acc) = truthy (snd acc').

Definition same_elements (l1 l2 : list string) : Prop :=
  forall x, x ∈ l1 <-> x ∈ l2.

Definition named (topics : list topic) : bool :=
  forallb (fun t => is_some (topic_name t)) topics.

Definition scoring_keys : list string :=
  ["exclude_penalty"; "title_match_multiplier"; "summary_match_multiplier";
   "high_priority_weight"; "medium_priority_weight"; "low_priority_weight";
   "minimum_score_threshold"].

Definition has_key (d : gmap string Z) (key : string) : bool :=
  match d !! key with
  | Some _ => true
  | None => false
  end.

(** A configuration with every key the scoring code reads. *)
Definition well_formed (self : InterestFilter) : bool :=
  forallb (has_key (scoring self)) scoring_keys
  && forallb (fun t => is_some (topic_name t) && is_some (priority t))
       (interests self)
  && forallb (fun t => is_some (topic_name t)) (exclude_topics self).

(** The score a ranked post carries. *)
Definition relevance_score_of (x : gmap string value) : Z :=
  match x !! "relevance_score" with
  | Some (VNum n) => n
  | _ => 0
  end.

(** The order of a list sorted with [reverse=True]. *)
Definition descending {A} : Z * A -> Z * A -> Prop :=
  fun p q => fst q <= fst p.

(** A list paired with the sort keys of its elements. *)
Definition decorate {A} (key : A -> Z) (l : list A) : list (Z * A) :=
  map (fun a => (key a, a)) l.

Definition keyed {A} (key : A -> Z) : Z * A -> Prop :=
  fun p => fst p = key (snd p).

(** What the matcher looks for: [text] splits into [pre], [mid] and
    [post], where [mid] folds to the folded keyword and the boundary test
    holds on each side of it. *)
Definition found_as_word (kw text : string) : Prop :=
  exists pre mid post,
    text = pre +:+ (mid +:+ post)
    /\ Re.fold_case mid = Re.fold_case kw
    /\ Re.boundary (Re.last_of None pre) (Re.head (mid +:+ post)) = true
    /\ Re.boundary (Re.last_of None (pre +:+ mid)) (Re.head post) = true.

(** The word characters of ASCII: letters, digits and the underscore. *)
Definition word_characters : string :=
  "abcdefghijklmnopqrstuvwxyzABCDEFGHIJKLMNOPQRSTUVWXYZ0123456789_".

Definition word_character (c : ascii) : Prop :=
  In c (list_ascii_of_string word_characters).

(** The letters of ASCII, each small letter with its capital. *)
Definition letter_cases : list (ascii * ascii) :=
  combine (list_ascii_of_string "abcdefghijklmnopqrstuvwxyz")
          (list_ascii_of_string "ABCDEFGHIJKLMNOPQRSTUVWXYZ").

(** The same character, or the two cases of one letter. *)
Definition same_letter (a b : ascii) : Prop :=
  a = b \/ In (a, b) letter_cases \/ In (b, a) letter_cases.

(** The same text, letter case aside. *)
Fixpoint same_word (s t : string) : Prop :=
  match s, t with
  | EmptyString, EmptyString => True
  | String a s', String b t' => same_letter a b /\ same_word s' t'
  | _, _ => False
  end.

(** A word character stands at a place; there is none before the start
    and after the end of the text. *)
Definition word_at (o : option ascii) : Prop :=
  match o with
  | Some c => word_character c
  | None => False
  end.

(** A word boundary: a word character on exactly one side. *)
Definition word_boundary (prev next : option ascii) : Prop :=
  (word_at prev /\ ~ word_at next) \/ (~ word_at prev /\ word_at next).

(** The keyword [kw] occurs in [text] as a whole word, in any letter
    case: [text] splits into [pre], the occurrence [mid] and [post]; [mid]
    is the keyword, letter case aside, and there is a word boundary on
    each side of it. *)
Definition occurs_as_word (kw text : string) : Prop :=
  exists pre mid post,
    text = pre +:+ (mid +:+ post)
    /\ same_word mid kw
    /\ word_boundary (Re.last_of None pre) (Re.head (mid +:+ post))
    /\ word_boundary (Re.last_of None (pre +:+ mid)) (Re.head post).

(** Every character. *)
Definition all_ascii : list ascii := map ascii_of_nat (seq 0 256).

Definition word_characterb (c : ascii) : bool :=
  existsb (Ascii.eqb c) (list_ascii_of_string word_characters).

Definition same_letterb (a b : ascii) : bool :=
  Ascii.eqb a b
  || existsb (fun p => Ascii.eqb a (fst p) && Ascii.eqb b (snd p)) letter_cases
  || existsb (fun p => Ascii.eqb b (fst p) && Ascii.eqb a (snd p)) letter_cases.

(** ** Further notions used in the statements *)

(** Folding the case of a pair (match, rest). *)
Definition fold_pair (o : option (string * string)) : option (string * string) :=
  match o with
  | Some (m, r) => Some (Re.fold_case m, Re.fold_case r)
  | None => None
  end.

(** Sum of the topic scores of [matched_topics]. *)
Definition topic_total (entries : list matched_topic) : Z :=
  foldr (fun e acc => mt_score e + acc) 0 entries.

(** The running score is the penalty once per recorded exclusion plus
    the scores of the recorded topics. *)
Definition accounted (penalty : Z) (st : Z * match_details) : Prop :=
  fst st = Z.of_nat (length (exclude_matches (snd st))) * penalty
           + topic_total (matched_topics (snd st)).

(** The dictionary built by [score_breakdown[topic] = topic_score], one
    assignment per entry of [matched_topics]. *)
Definition breakdown_of (entries : list matched_topic) : gmap string Z :=
  foldl (fun m e => <[mt_topic e := mt_score e]> m) ∅ entries.

(** The match details [score_post] starts from. *)
Definition no_matches : match_details :=
  {| matched_topics := []; matched_keywords := [];
     exclude_matches := []; score_breakdown := ∅ |}.

(** The breakdown holds the scores of the recorded topics. *)
Definition itemised (st : Z * match_details) : Prop :=
  score_breakdown (snd st) = breakdown_of (matched_topics (snd st)).

(** A scoring constant, 0 when the configuration lacks it. *)
Definition scoring_value (self : InterestFilter) (key : string) : Z :=
  default 0 (scoring self !! key).

(** The weight of a priority level. *)
Definition weight_of (self : InterestFilter) (p : string) : Z :=
  if String.eqb p "high" then scoring_value self "high_priority_weight"
  else if String.eqb p "medium" then scoring_value self "medium_priority_weight"
  else if String.eqb p "low" then scoring_value self "low_priority_weight"
  else 1.

(** What one interest contributes to the score of a document. *)
Definition topic_score_of (self : InterestFilter) (post : gmap string value)
  (t : topic) : Z :=
  let weight := weight_of self (default "" (priority t)) in
  distinct_count (Re.findall (pattern t) (text_field post "title"))
    * weight * scoring_value self "title_match_multiplier"
  + distinct_count (Re.findall (pattern t) (text_field post "ai_summary"))
    * weight * scoring_value self "summary_match_multiplier"
  + distinct_count (Re.findall (pattern t) (other_text post)) * weight.

(** [sum(l)] *)
Definition sum_list (l : list Z) : Z := foldr Z.add 0 l.

(** The keys [score_post] reads in a post. *)
Definition scored_keys : list string :=
  ["title"; "ai_summary"; "key_points"; "significance"].

(** The posts whose score reaches the threshold. *)
Definition above_threshold (self : InterestFilter)
  (posts : list (gmap string value)) : list (gmap string value) :=
  List.filter
    (fun d => scoring_value self "minimum_score_threshold" <=? relevance_score_of d)
    posts.

(** The posts whose score stays below the threshold. *)
Definition below_threshold (self : InterestFilter)
  (posts : list (gmap string value)) : list (gmap string value) :=
  List.filter
    (fun d => relevance_score_of d <? scoring_value self "minimum_score_threshold")
    posts.

(** The configuration entry a compiled topic comes from. *)
Definition raw_of (t : topic) : raw_topic :=
  {| rt_topic := topic_name t;
     rt_priority := priority t;
     rt_keywords := Some (keywords t) |}.

(** The keys [_get_priority_weight] reads. *)
Definition weight_keys : list string :=
  ["high_priority_weight"; "medium_priority_weight"; "low_priority_weight"].

(** ** Further test data *)

Module Cases.

(** The configuration [Examples.loaded] with a penalty of 0. *)
Definition free_pass : InterestFilter :=
  {| interests := interests Examples.loaded;
     exclude_topics := exclude_topics Examples.loaded;
     scoring := <["exclude_penalty" := 0]> Examples.the_scoring |}.




(** An interest without a priority. *)
Definition unranked : topic :=
  {| topic_name := Some "robotics"; priority := None;
     keywords := ["robot"]; pattern := Re.compile ["robot"] |}.

Definition no_priority : InterestFilter :=
  {| interests := [unranked];
     exclude_topics := [];
     scoring := Examples.the_scoring |}.

Definition quiet_post : gmap string value :=
  <["title" := VStr "Quarterly earnings"]> ∅.

Definition numbered_post : gmap string value :=
  <["title" := VNum 7]> ∅.

Definition swapped_posts : list (gmap string value) :=
  [Examples.robot_post; Examples.kardashian_post; Examples.robot_post_2].

(** A document whose significance is present and is [None]. *)
Definition null_significance_post : gmap string value :=
  <["title" := VStr "New robot unveiled"]> (<["significance" := VNone]> ∅).

(** The file
    [{"interests": [{"topic": "misc", "priority": "urgent", "keywords": []}],
      "scoring": {}}]. *)
Definition lax_file : Json.json :=
  Json.JObj
    [("interests",
      Json.JList
        [Json.JObj [("topic", Json.JStr "misc");
                    ("priority", Json.JStr "urgent");
                    ("keywords", Json.JList [])]]);
     ("scoring", Json.JObj [])].

(** The file [{"interests": [], "exclude_topics": null, "scoring": {}}]. *)
Definition null_exclusions_file : Json.json :=
  Json.JObj
    [("interests", Json.JList []);
     ("exclude_topics", Json.JNull);
     ("scoring", Json.JObj [])].

End Cases.

(** * Properties *)

#[local] Arguments String.append _ _ : simpl nomatch.

(** ** The result monad and the loops *)

Lemma bind_Ok {A B} (r : result A) (k : A -> result B) (b : B) :
  r ≫= k = Ok b <-> exists a, r = Ok a /\ k a = Ok b.
Proof.
  destruct r as [a|e]; simpl.
  - split; [intros H; exists a; auto | intros (a' & Ha & Hk); congruence].
  - split; [discriminate | intros (a' & Ha & _); discriminate].
Qed.

Lemma bind_ret {A B} (a : A) (k : A -> result B) : Ok a ≫= k = k a.
Proof. reflexivity. Qed.

Ltac inv_ok :=
  repeat match goal with
  | H : _ ≫= _ = Ok _ |- _ =>
      apply bind_Ok in H; destruct H as (? & ? & H)
  | H : Ok _ = Ok _ |- _ => injection H as H; try subst
  | H : Raise _ = Ok _ |- _ => discriminate H
  | H : mret _ = Ok _ |- _ => injection H as H; try subst
  end.

Lemma bind_fails {A B} (r : result A) (k : A -> result B) :
  (exists e, r ≫= k = Raise e)
  <-> (exists e, r = Raise e) \/ exists a, r = Ok a /\ exists e, k a = Raise e.
Proof.
  destruct r as [a|e]; cbn [mbind result_bind].
  - split.
    + intros H. right. exists a. auto.
    + intros [[e H]|(a' & H & He)]; [discriminate|].
      injection H as <-. exact He.
  - split; [intros _; left; eauto|intros _; eauto].
Qed.

Lemma collect_fails {A B} (f : A -> result B) xs :
  (exists e, collect f xs = Raise e)
  <-> exists x, x ∈ xs /\ exists e, f x = Raise e.
Proof.
  induction xs as [|x xs IH]; cbn [collect].
  - split; [intros [e H]; discriminate|intros (x & Hx & _); inversion Hx].
  - rewrite bind_fails. split.
    + intros [He|(y & Hy & H)].
      * exists x. split; [left|exact He].
      * apply bind_fails in H as [H|(ys & _ & e & H)]; [|discriminate].
        apply IH in H as (x' & Hx' & He). exists x'. split; [right|]; auto.
    + intros (x' & Hx' & He).
      apply elem_of_cons in Hx' as [->|Hx']; [left; exact He|].
      destruct (f x) as [y|e] eqn:Ex; [|left; eauto].
      right. exists y. split; [reflexivity|]. apply bind_fails. left.
      apply IH. eauto.
Qed.

Lemma getitem_Ok {V} (d : gmap string V) key v :
  getitem d key = Ok v <-> d !! key = Some v.
Proof.
  unfold getitem. destruct (d !! key); split; intros H; congruence.
Qed.

Lemma collect_Forall2 {A B} (f : A -> result B) xs ys :
  collect f xs = Ok ys -> Forall2 (fun x y => f x = Ok y) xs ys.
Proof.
  revert ys; induction xs as [|x xs IH]; intros ys H; simpl in H.
  - inv_ok. constructor.
  - inv_ok. constructor; auto.
Qed.

Lemma Forall2_collect {A B} (f : A -> result B) xs ys :
  Forall2 (fun x y => f x = Ok y) xs ys -> collect f xs = Ok ys.
Proof.
  induction 1 as [|x y xs ys Hxy _ IH]; simpl; [reflexivity|].
  rewrite Hxy; simpl. rewrite IH; reflexivity.
Qed.

Lemma collect_returns {A B} (f : A -> result B) xs :
  Forall (fun x => returns (f x)) xs -> returns (collect f xs).
Proof.
  induction 1 as [|x xs [y Hy] _ [ys IH]]; simpl.
  - exists []; reflexivity.
  - exists (y :: ys). rewrite Hy; simpl. rewrite IH; reflexivity.
Qed.

(** ** The stable descending sort *)

Section Sorting.

Context {A : Type}.
Implicit Types (x : Z * A) (l : list (Z * A)).

Lemma insert_reverse_perm x l : insert_reverse x l ≡ₚ x :: l.
Proof.
  induction l as [|y l IH]; simpl; [reflexivity|].
  destruct (fst x <? fst y); [|reflexivity].
  rewrite IH. apply perm_swap.
Qed.

Lemma sort_reverse_perm l : sort_reverse l ≡ₚ l.
Proof.
  induction l as [|x l IH]; simpl; [reflexivity|].
  rewrite insert_reverse_perm, IH. reflexivity.
Qed.

Lemma insert_reverse_sorted x l :
  StronglySorted descending l -> StronglySorted descending (insert_reverse x l).
Proof.
  induction 1 as [|y l Hl IH Hy]; simpl.
  - repeat constructor.
  - destruct (Z.ltb_spec (fst x) (fst y)) as [Hlt|Hge].
    + constructor; [exact IH|].
      rewrite insert_reverse_perm. constructor; [|exact Hy].
      unfold descending. lia.
    + constructor; [constructor; assumption|].
      constructor; [exact Hge|].
      eapply Forall_impl; [exact Hy|].
      unfold descending. intros z Hz. lia.
Qed.

Lemma sort_reverse_sorted l : StronglySorted descending (sort_reverse l).
Proof.
  induction l as [|x l IH]; simpl; [constructor|].
  apply insert_reverse_sorted, IH.
Qed.

(** Insertion only moves [x] past elements whose key differs from its
    own, so the elements of any one key keep their order. *)
Lemma insert_reverse_stable (k : Z) x l :
  filter (fun p => fst p = k) (insert_reverse x l)
  = filter (fun p => fst p = k) (x :: l).
Proof.
  induction l as [|y l IH]; simpl; [reflexivity|].
  destruct (Z.ltb_spec (fst x) (fst y)) as [Hlt|Hge]; [|reflexivity].
  rewrite (filter_cons _ y (insert_reverse x l)), IH.
  rewrite (filter_cons _ x (y :: l)), (filter_cons _ x l), (filter_cons _ y l).
  repeat case_decide; try reflexivity; lia.
Qed.

Lemma sort_reverse_stable (k : Z) l :
  filter (fun p => fst p = k) (sort_reverse l) = filter (fun p => fst p = k) l.
Proof.
  induction l as [|x l IH]; simpl; [reflexivity|].
  rewrite insert_reverse_stable, !filter_cons, IH. reflexivity.
Qed.

Variable key : A -> Z.
#[local] Abbreviation decorate := (decorate key).
#[local] Abbreviation keyed := (keyed key).

Lemma decorate_zip (l : list A) : zip (map key l) l = decorate l.
Proof. induction l as [|a l IH]; simpl; [reflexivity|]. rewrite IH. reflexivity. Qed.

Lemma snd_decorate (l : list A) : map snd (decorate l) = l.
Proof. induction l as [|a l IH]; simpl; [reflexivity|]. rewrite IH. reflexivity. Qed.

Lemma decorate_keyed (l : list A) : Forall keyed (decorate l).
Proof. induction l; simpl; constructor; auto. reflexivity. Qed.

Lemma sort_reverse_keyed l : Forall keyed l -> Forall keyed (sort_reverse l).
Proof. intros H. rewrite sort_reverse_perm. exact H. Qed.

Lemma keyed_sorted l :
  Forall keyed l -> StronglySorted descending l ->
  StronglySorted (fun a b => key b <= key a) (map snd l).
Proof.
  intros Hk Hs. induction Hs as [|p l Hs IH Hp]; simpl; [constructor|].
  inversion Hk as [|? ? Hkp Hkl]; subst.
  constructor; [apply IH, Hkl|].
  rewrite Forall_map. rewrite Forall_forall in Hp, Hkl |- *.
  intros q Hq. specialize (Hp q Hq). specialize (Hkl q Hq).
  unfold descending, keyed in *. simpl. lia.
Qed.

Lemma keyed_filter (k : Z) l :
  Forall keyed l ->
  filter (fun a => key a = k) (map snd l)
  = map snd (filter (fun p => fst p = k) l).
Proof.
  induction 1 as [|p l Hp _ IH]; simpl; [reflexivity|].
  rewrite !filter_cons, IH. unfold keyed in Hp.
  repeat case_decide; try reflexivity; congruence.
Qed.

Lemma sort_by_key_perm (l : list A) : map snd (sort_reverse (decorate l)) ≡ₚ l.
Proof. rewrite sort_reverse_perm, snd_decorate. reflexivity. Qed.

Lemma sort_by_key_sorted (l : list A) :
  StronglySorted (fun a b => key b <= key a) (map snd (sort_reverse (decorate l))).
Proof.
  apply keyed_sorted; [apply sort_reverse_keyed, decorate_keyed|].
  apply sort_reverse_sorted.
Qed.

Lemma sort_by_key_stable (k : Z) (l : list A) :
  filter (fun a => key a = k) (map snd (sort_reverse (decorate l)))
  = filter (fun a => key a = k) l.
Proof.
  rewrite keyed_filter by (apply sort_reverse_keyed, decorate_keyed).
  rewrite sort_reverse_stable.
  rewrite <- keyed_filter by apply decorate_keyed.
  rewrite snd_decorate. reflexivity.
Qed.

End Sorting.

(** ** Ranking: [filter_posts] *)

Section Ranking.

Context {order : SetOrder}.

Lemma enhanced_post_inv self post a :
  enhanced_post self post = Ok a ->
  exists score matches threshold,
    score_post self post = Ok (score, matches)
    /\ scoring self !! "minimum_score_threshold" = Some threshold
    /\ a = <["is_relevant" := VBool (threshold <=? score)]>
             (<["relevance_matches" := VMatches matches]>
                (<["relevance_score" := VNum score]> post)).
Proof.
  unfold enhanced_post. intros H.
  apply bind_Ok in H as ([score matches] & Hs & H).
  apply bind_Ok in H as (threshold & Ht & H).
  apply getitem_Ok in Ht. injection H as <-.
  exists score, matches, threshold. auto.
Qed.

Lemma enhanced_post_key self post a :
  enhanced_post self post = Ok a ->
  relevance_score_key a = Ok (relevance_score_of a).
Proof.
  intros H. apply enhanced_post_inv in H as (score & matches & thr & _ & _ & ->).
  unfold relevance_score_key, relevance_score_of, getitem.
  rewrite lookup_insert_ne, lookup_insert_ne, lookup_insert_eq by done.
  reflexivity.
Qed.

Lemma filter_posts_inv self posts out :
  filter_posts self posts = Ok out ->
  exists annotated,
    Forall2 (fun post a => enhanced_post self post = Ok a) posts annotated
    /\ out = map snd (sort_reverse (decorate relevance_score_of annotated)).
Proof.
  unfold filter_posts. intros H.
  apply bind_Ok in H as (annotated & H0 & H).
  apply bind_Ok in H as (keys & H1 & H). injection H as <-.
  exists annotated. apply collect_Forall2 in H0. split; [exact H0|].
  assert (keys = map relevance_score_of annotated) as ->.
  { apply collect_Forall2 in H1. clear -H0 H1.
    revert keys H1. induction H0 as [|p a ps az Hpa _ IH]; intros keys Hk.
    - inversion Hk; reflexivity.
    - inversion Hk as [|? k ? ks Hak Hks]; subst. simpl.
      rewrite (enhanced_post_key _ _ _ Hpa) in Hak. inv_ok.
      f_equal. apply IH, Hks. }
  rewrite decorate_zip. reflexivity.
Qed.

(** C3. [filter_posts] returns one annotated post per input post, none
    dropped, in descending order of [relevance_score]; posts of equal
    score keep the relative order they had in the input. *)
Theorem filter_posts_stable_descending self posts out :
  filter_posts self posts = Ok out ->
  exists annotated,
    Forall2 (fun post a => enhanced_post self post = Ok a) posts annotated
    /\ length out = length posts
    /\ out ≡ₚ annotated
    /\ StronglySorted
         (fun a b => relevance_score_of b <= relevance_score_of a) out
    /\ forall score,
         filter (fun a => relevance_score_of a = score) out
         = filter (fun a => relevance_score_of a = score) annotated.
Proof.
  intros H. apply filter_posts_inv in H as (annotated & Hall & ->).
  exists annotated. split; [exact Hall|].
  split.
  { rewrite (sort_by_key_perm relevance_score_of annotated).
    symmetry. eapply Forall2_length, Hall. }
  split; [apply sort_by_key_perm|].
  split; [apply sort_by_key_sorted|].
  intros score. apply sort_by_key_stable.
Qed.

(** C4. Every post annotated by [filter_posts] has [is_relevant] true
    exactly when its [relevance_score] is at least
    [minimum_score_threshold], the boundary included. *)
Theorem filter_posts_threshold self posts out d :
  filter_posts self posts = Ok out ->
  d ∈ out ->
  exists threshold,
    scoring self !! "minimum_score_threshold" = Some threshold
    /\ d !! "relevance_score" = Some (VNum (relevance_score_of d))
    /\ d !! "is_relevant" = Some (VBool (threshold <=? relevance_score_of d))
    /\ (d !! "is_relevant" = Some (VBool true)
        <-> threshold <= relevance_score_of d)
    /\ (relevance_score_of d = threshold
        -> d !! "is_relevant" = Some (VBool true)).
Proof.
  intros H Hd. apply filter_posts_inv in H as (annotated & Hall & ->).
  rewrite (sort_by_key_perm relevance_score_of annotated) in Hd.
  apply list_elem_of_lookup in Hd as [i Hi].
  destruct (Forall2_lookup_r _ _ _ _ _ Hall Hi) as (post & _ & Ha).
  apply enhanced_post_inv in Ha as (score & matches & threshold & _ & Ht & ->).
  exists threshold.
  assert (Hscore : relevance_score_of
            (<["is_relevant" := VBool (threshold <=? score)]>
               (<["relevance_matches" := VMatches matches]>
                  (<["relevance_score" := VNum score]> post))) = score).
  { unfold relevance_score_of.
    rewrite lookup_insert_ne, lookup_insert_ne, lookup_insert_eq by done.
    reflexivity. }
  rewrite Hscore.
  split; [exact Ht|].
  split.
  { rewrite lookup_insert_ne, lookup_insert_ne, lookup_insert_eq by done.
    reflexivity. }
  rewrite lookup_insert_eq.
  split; [reflexivity|].
  split.
  - split.
    + intros Hb. injection Hb as Hb. apply Z.leb_le, Hb.
    + intros Hle. apply Z.leb_le in Hle. rewrite Hle. reflexivity.
  - intros ->. rewrite Z.leb_refl. reflexivity.
Qed.

End Ranking.

Lemma filter_posts_stable_descending_witness :
  exists annotated,
    Forall2 (fun post a => enhanced_post Examples.loaded post = Ok a)
      Examples.three_posts annotated
    /\ length Examples.ranked = length Examples.three_posts
    /\ Examples.ranked ≡ₚ annotated
    /\ StronglySorted
         (fun a b => relevance_score_of b <= relevance_score_of a)
         Examples.ranked
    /\ forall score,
         filter (fun a => relevance_score_of a = score) Examples.ranked
         = filter (fun a => relevance_score_of a = score) annotated.
Proof.
  apply (filter_posts_stable_descending Examples.loaded).
  reflexivity.
Defined.

Lemma filter_posts_threshold_witness :
  exists threshold,
    scoring Examples.loaded !! "minimum_score_threshold" = Some threshold
    /\ Examples.top !! "relevance_score"
       = Some (VNum (relevance_score_of Examples.top))
    /\ Examples.top !! "is_relevant"
       = Some (VBool (threshold <=? relevance_score_of Examples.top))
    /\ (Examples.top !! "is_relevant" = Some (VBool true)
        <-> threshold <= relevance_score_of Examples.top)
    /\ (relevance_score_of Examples.top = threshold
        -> Examples.top !! "is_relevant" = Some (VBool true)).
Proof.
  apply (filter_posts_threshold Examples.loaded Examples.three_posts
           Examples.ranked Examples.top).
  - reflexivity.
  - apply list_elem_of_In. left. reflexivity.
Defined.

(** ** The matchers *)

Lemma literal_Some kw text m r :
  Re.literal kw text = Some (m, r)
  <-> text = m +:+ r /\ Re.fold_case m = Re.fold_case kw.
Proof.
  revert text m r. induction kw as [|k kw IH]; intros text m r; simpl.
  - split.
    + intros H. injection H as <- <-. auto.
    + intros [-> Hm]. destruct m; [reflexivity|discriminate].
  - split.
    + destruct text as [|c text]; [discriminate|].
      destruct (Ascii.eqb (Re.lower k) (Re.lower c)) eqn:E; [|discriminate].
      destruct (Re.literal kw text) as [[m' r']|] eqn:L; [|discriminate].
      intros H. injection H as <- <-.
      apply IH in L as [-> Hf]. apply Ascii.eqb_eq in E.
      simpl. rewrite Hf, E. auto.
    + intros [-> Hm]. destruct m as [|c m]; [discriminate|].
      simpl in Hm. injection Hm as Hc Hm. simpl.
      rewrite <- Hc, Ascii.eqb_refl.
      assert (L : Re.literal kw (m +:+ r) = Some (m, r)) by (apply IH; auto).
      rewrite L. reflexivity.
Qed.

Lemma last_of_app prev pre mid :
  Re.last_of prev (pre +:+ mid) = Re.last_of (Re.last_of prev pre) mid.
Proof.
  revert prev. induction pre as [|c pre IH]; intros prev; simpl; auto.
Qed.

Lemma branch_match_Word kw prev text m r :
  Re.branch_match (Re.Word kw) prev text = Some (m, r)
  <-> Re.boundary prev (Re.head text) = true
      /\ text = m +:+ r /\ Re.fold_case m = Re.fold_case kw
      /\ Re.boundary (Re.last_of prev m) (Re.head r) = true.
Proof.
  simpl. split.
  - destruct (Re.boundary prev (Re.head text)); [|discriminate].
    destruct (Re.literal kw text) as [[m' r']|] eqn:L; [|discriminate].
    destruct (Re.boundary (Re.last_of prev m') (Re.head r')) eqn:B;
      [|discriminate].
    intros H. injection H as <- <-. apply literal_Some in L as [-> Hf]. auto.
  - intros (-> & Ht & Hf & B).
    assert (L : Re.literal kw text = Some (m, r)) by (apply literal_Some; auto).
    rewrite L, B. reflexivity.
Qed.

Lemma first_match_words kws prev text :
  is_Some (Re.first_match true (map Re.Word kws) prev text)
  <-> exists kw, kw ∈ kws
        /\ is_Some (Re.branch_match (Re.Word kw) prev text).
Proof.
  induction kws as [|k kws IH].
  - simpl. split.
    + intros [? H]; discriminate.
    + intros (kw & Hin & _). inversion Hin.
  - cbn [map Re.first_match].
    destruct (Re.branch_match (Re.Word k) prev text) as [[m r]|] eqn:B.
    + cbn [orb]. split; [|intros _; eauto].
      intros _. exists k. split; [left|]. rewrite B. eauto.
    + rewrite IH. split.
      * intros (kw & Hin & Hs). exists kw. split; [right; exact Hin|exact Hs].
      * intros (kw & Hin & Hs). apply elem_of_cons in Hin as [->|Hin].
        -- rewrite B in Hs. destruct Hs; discriminate.
        -- eauto.
Qed.

Lemma search_from_true pat prev text :
  Re.search_from pat prev text = true
  <-> exists pre rest,
        text = pre +:+ rest
        /\ is_Some (Re.first_match true pat (Re.last_of prev pre) rest).
Proof.
  revert prev. induction text as [|c text IH]; intros prev; simpl.
  - destruct (Re.first_match true pat prev "") as [mr|] eqn:F.
    + split; [|auto]. intros _. exists "", "". simpl. rewrite F. eauto.
    + split; [discriminate|].
      intros (pre & rest & Ht & Hs).
      destruct pre; [|discriminate]. simpl in Ht, Hs. subst rest.
      rewrite F in Hs. destruct Hs; discriminate.
  - destruct (Re.first_match true pat prev (String c text)) as [mr|] eqn:F.
    + split; [|auto]. intros _. exists "", (String c text). simpl.
      rewrite F. eauto.
    + rewrite IH. split.
      * intros (pre & rest & -> & Hs). exists (String c pre), rest. auto.
      * intros (pre & rest & Ht & Hs). destruct pre as [|c' pre].
        -- simpl in Ht, Hs. subst rest. rewrite F in Hs.
           destruct Hs; discriminate.
        -- simpl in Ht. injection Ht as <- ->. exists pre, rest. auto.
Qed.

Lemma search_words kws text :
  Re.search (map Re.Word kws) text = true
  <-> exists kw, kw ∈ kws /\ found_as_word kw text.
Proof.
  unfold Re.search. rewrite search_from_true. split.
  - intros (pre & rest & -> & Hs).
    apply first_match_words in Hs as (kw & Hin & [[m r] Hb]).
    apply branch_match_Word in Hb as (B1 & -> & Hf & B2).
    exists kw. split; [exact Hin|]. exists pre, m, r.
    rewrite last_of_app. auto.
  - intros (kw & Hin & pre & mid & post & -> & Hf & B1 & B2).
    exists pre, (mid +:+ post). split; [reflexivity|].
    apply first_match_words. exists kw. split; [exact Hin|].
    exists (mid, post). apply branch_match_Word.
    rewrite last_of_app in B2. auto.
Qed.

(** A topic has a match in a text for [findall] exactly when [search]
    finds one. *)
Lemma findall_from_truthy pat prev text :
  truthy (Re.findall_from pat prev text 0) = Re.search_from pat prev text.
Proof.
  revert prev. induction text as [|c text IH]; intros prev; simpl;
    unfold Re.matches_here.
  - destruct (Re.first_match true pat prev "") as [[[|c m] r]|];
      simpl; auto.
    destruct (Re.first_match false pat prev "") as [[m r']|]; simpl; auto.
  - destruct (Re.first_match true pat prev (String c text))
      as [[[|c' m] r]|]; simpl; auto.
    destruct (Re.first_match false pat prev (String c text)) as [[m r']|];
      simpl; auto.
Qed.

Lemma findall_truthy pat text :
  truthy (Re.findall pat text) = Re.search pat text.
Proof. apply findall_from_truthy. Qed.

Lemma all_ascii_complete c : In c all_ascii.
Proof.
  rewrite <- (ascii_nat_embedding c). unfold all_ascii.
  apply in_map, in_seq. pose proof (nat_ascii_bounded c). lia.
Qed.

Lemma word_characterb_spec c : word_characterb c = true <-> word_character c.
Proof.
  unfold word_characterb, word_character. rewrite existsb_exists. split.
  - intros (x & Hx & E). apply Ascii.eqb_eq in E. subst. exact Hx.
  - intros H. exists c. split; [exact H|apply Ascii.eqb_refl].
Qed.

Lemma pair_existsb (a b : ascii) l :
  existsb (fun p => Ascii.eqb a (fst p) && Ascii.eqb b (snd p)) l = true
  <-> In (a, b) l.
Proof.
  rewrite existsb_exists. split.
  - intros ([x y] & Hx & E). apply andb_prop in E as [E1 E2].
    apply Ascii.eqb_eq in E1, E2. cbn [fst snd] in *. subst. exact Hx.
  - intros H. exists (a, b). split; [exact H|].
    cbn [fst snd]. rewrite !Ascii.eqb_refl. reflexivity.
Qed.

Lemma same_letterb_spec a b : same_letterb a b = true <-> same_letter a b.
Proof.
  unfold same_letterb, same_letter.
  rewrite !orb_true_iff, !pair_existsb, Ascii.eqb_eq. tauto.
Qed.

Lemma is_word_table :
  forallb (fun c => Bool.eqb (Re.is_word c) (word_characterb c)) all_ascii
  = true.
Proof. vm_compute. reflexivity. Qed.

Lemma lower_table :
  forallb (fun a =>
             forallb (fun b => Bool.eqb (Ascii.eqb (Re.lower a) (Re.lower b))
                                 (same_letterb a b)) all_ascii)
    all_ascii = true.
Proof. vm_compute. reflexivity. Qed.

Lemma is_word_spec c : Re.is_word c = true <-> word_character c.
Proof.
  rewrite <- word_characterb_spec.
  pose proof is_word_table as H. rewrite forallb_forall in H.
  specialize (H c (all_ascii_complete c)). apply Bool.eqb_prop in H.
  rewrite H. reflexivity.
Qed.

Lemma lower_spec a b : Re.lower a = Re.lower b <-> same_letter a b.
Proof.
  rewrite <- same_letterb_spec, <- Ascii.eqb_eq.
  pose proof lower_table as H. rewrite forallb_forall in H.
  specialize (H a (all_ascii_complete a)). rewrite forallb_forall in H.
  specialize (H b (all_ascii_complete b)). apply Bool.eqb_prop in H.
  rewrite H. reflexivity.
Qed.

Lemma fold_case_spec m k : Re.fold_case m = Re.fold_case k <-> same_word m k.
Proof.
  revert k. induction m as [|a m IH]; intros [|b k]; cbn [Re.fold_case same_word];
    try (split; [discriminate|tauto]); [tauto|].
  rewrite <- IH, <- lower_spec. split.
  - intros [= H1 H2]. auto.
  - intros [-> ->]. reflexivity.
Qed.

Lemma word_opt_spec o : Re.word_opt o = true <-> word_at o.
Proof.
  destruct o as [c|]; cbn [Re.word_opt word_at]; [apply is_word_spec|].
  split; [discriminate|tauto].
Qed.

Lemma boundary_spec prev next :
  Re.boundary prev next = true <-> word_boundary prev next.
Proof.
  unfold Re.boundary, word_boundary. rewrite <- !word_opt_spec.
  destruct (Re.word_opt prev), (Re.word_opt next); cbn [xorb];
    split; try discriminate; try tauto; intuition discriminate.
Qed.

Lemma occurs_as_word_spec kw text :
  found_as_word kw text <-> occurs_as_word kw text.
Proof.
  unfold found_as_word, occurs_as_word. split.
  - intros (pre & mid & post & H1 & H2 & H3 & H4). exists pre, mid, post.
    rewrite <- fold_case_spec, <- !boundary_spec. auto.
  - intros (pre & mid & post & H1 & H2 & H3 & H4). exists pre, mid, post.
    rewrite fold_case_spec, !boundary_spec. auto.
Qed.

(** C8. For ASCII text and keywords, a keyword list matches a text
    exactly when one of its keywords occurs in it, letter case aside and
    character for character, with a word boundary on both sides: ["bot"]
    is not found in ["robotics"], ["robot"] is found in ["I have a
    robot"], and the dot of ["a.c"] stands for itself only. *)
Theorem whole_word_matching :
  (forall kw kws text,
     Re.ascii_text text = true ->
     forallb Re.ascii_text (kw :: kws) = true ->
     Re.search (Re.compile (kw :: kws)) text = true
     <-> exists k, k ∈ kw :: kws /\ occurs_as_word k text)
  /\ (forall kws text,
       Re.ascii_text text = true ->
       forallb Re.ascii_text kws = true ->
       truthy (Re.findall (Re.compile kws) text)
       = Re.search (Re.compile kws) text)
  /\ Re.search (Re.compile ["bot"]) "robotics" = false
  /\ Re.search (Re.compile ["robot"]) "I have a robot" = true
  /\ Re.search (Re.compile ["Robot"]) "the ROBOT arm" = true
  /\ Re.search (Re.compile ["a.c"]) "abc" = false
  /\ Re.search (Re.compile ["a.c"]) "see a.c here" = true.
Proof.
  split; [|split; [|repeat split; reflexivity]].
  - intros kw kws text _ _. rewrite (search_words (kw :: kws)).
    split; intros (k & Hk & H); exists k; (split; [exact Hk|]);
      apply occurs_as_word_spec, H.
  - intros kws text _ _. apply findall_truthy.
Qed.

Lemma whole_word_matching_witness :
  Re.search (Re.compile ["robot"; "robotics"]) "I have a robot" = true
  <-> exists k, k ∈ ["robot"; "robotics"] /\ occurs_as_word k "I have a robot".
Proof.
  apply (proj1 whole_word_matching "robot" ["robotics"] "I have a robot").
  - reflexivity.
  - reflexivity.
Defined.

(** ** Scoring: the exclusion pass *)

Section ScoringExclusionPass.

Context {order : SetOrder}.

Lemma document_fields post :
  document_ok post = true ->
  get post "title" (VStr "") = VStr (text_field post "title")
  /\ get post "ai_summary" (VStr "") = VStr (text_field post "ai_summary")
  /\ join_value " " (get post "key_points" (VList []))
     = Ok (join " " (list_field post "key_points"))
  /\ get post "significance" (VStr "") = VStr (text_field post "significance").
Proof.
  unfold document_ok, get, text_field, list_field, is_text, is_text_list.
  intros H. repeat (apply andb_prop in H as [H ?]).
  destruct (post !! "title") as [[]|]; try discriminate;
  destruct (post !! "ai_summary") as [[]|]; try discriminate;
  destruct (post !! "key_points") as [[]|]; try discriminate;
  destruct (post !! "significance") as [[]|]; try discriminate;
  auto.
Qed.

Lemma named_cons t topics :
  named (t :: topics) = true ->
  (exists name, topic_name t = Some name) /\ named topics = true.
Proof.
  unfold named. simpl. intros H. apply andb_prop in H as [Ht H].
  split; [|exact H]. destruct (topic_name t); [eauto|discriminate].
Qed.

(** The loop adds the penalty once per topic that fires and records the
    topic. *)
Lemma exclusion_loop self title summary penalty excludes score matches :
  scoring self !! "exclude_penalty" = Some penalty ->
  named excludes = true ->
  let hits :=
    List.filter (fun t => Re.search (pattern t) ((title +:+ " ") +:+ summary))
      excludes in
  for_each excludes (exclusion_step self (VStr title) (VStr summary))
    (score, matches)
  = Ok (score + Z.of_nat (length hits) * penalty,
        {| matched_topics := matched_topics matches;
           matched_keywords := matched_keywords matches;
           exclude_matches := exclude_matches matches ++ omap topic_name hits;
           score_breakdown := score_breakdown matches |}).
Proof.
  intros Hp. revert score matches.
  induction excludes as [|t excludes IH]; intros score matches Hn; simpl.
  - rewrite app_nil_r, Z.add_0_r. destruct matches; reflexivity.
  - apply named_cons in Hn as [[name Hname] Hn].
    destruct (Re.search (pattern t) ((title +:+ " ") +:+ summary)) eqn:S.
    + rewrite Hname. unfold getitem. rewrite Hp. simpl.
      rewrite (IH _ _ Hn). simpl. rewrite Hname. simpl.
      rewrite <- app_assoc. simpl. do 2 f_equal. lia.
    + simpl. rewrite (IH _ _ Hn). reflexivity.
Qed.

(** C1, as the code has it. When at least one exclusion topic fires on
    [title + ' ' + summary] and [exclude_penalty] is negative,
    [score_post] returns at once: the score is [exclude_penalty] times the
    number of exclusion topics that fired, [matched_topics] and
    [matched_keywords] are empty and [score_breakdown] has the single key
    ['exclusion_penalty'], whatever the interests match. *)
Theorem exclusion_veto self post penalty :
  document_ok post = true ->
  scoring self !! "exclude_penalty" = Some penalty ->
  penalty < 0 ->
  named (exclude_topics self) = true ->
  exclusion_hits self post <> [] ->
  let total := Z.of_nat (length (exclusion_hits self post)) * penalty in
  score_post self post
  = Ok (total,
        {| matched_topics := [];
           matched_keywords := [];
           exclude_matches := omap topic_name (exclusion_hits self post);
           score_breakdown := {[ "exclusion_penalty" := total ]} |}).
Proof.
  intros Hdoc Hp Hneg Hn Hhits total.
  destruct (document_fields post Hdoc) as (Ht & Hs & Hk & Hg).
  unfold score_post. rewrite Ht, Hs, Hk, bind_ret.
  rewrite (exclusion_loop self _ _ penalty _ 0 _ Hp Hn), bind_ret.
  cbv beta iota zeta.
  fold (exclusion_text post). fold (exclusion_hits self post).
  rewrite Z.add_0_l. fold total.
  rewrite (proj2 (getitem_Ok _ _ _) Hp), bind_ret.
  assert (Hle : (total <=? penalty) = true).
  { apply Z.leb_le. subst total.
    destruct (exclusion_hits self post); [congruence|].
    rewrite length_cons. lia. }
  rewrite Hle. cbn [matched_topics matched_keywords exclude_matches
                      score_breakdown app].
  rewrite insert_empty. reflexivity.
Qed.

End ScoringExclusionPass.

Lemma exclusion_veto_witness :
  score_post Examples.two_exclusions Examples.kardashian_bitcoin_post
  = Ok (-100,
        {| matched_topics := [];
           matched_keywords := [];
           exclude_matches := ["celebrity"; "crypto"];
           score_breakdown := {[ "exclusion_penalty" := -100 ]} |}).
Proof.
  apply (exclusion_veto Examples.two_exclusions
           Examples.kardashian_bitcoin_post (-50)).
  - vm_compute. reflexivity.
  - vm_compute. reflexivity.
  - lia.
  - vm_compute. reflexivity.
  - vm_compute. discriminate.
Defined.

(** C1 as stated fails: with two exclusion topics firing the score is
    twice the penalty, not the penalty. *)
Lemma exclusion_veto_counterexample :
  let self := Examples.two_exclusions in
  let post := Examples.kardashian_bitcoin_post in
  scoring self !! "exclude_penalty" = Some (-50)
  /\ exclusion_hits self post <> []
  /\ (fst <$> score_post self post) = Ok (-100)
  /\ (fst <$> score_post self post) <> Ok (-50).
Proof.
  repeat split; vm_compute; congruence.
Qed.

(** ** Scoring: the interest pass *)

Section ScoringInterestPass.

Context {order : SetOrder}.

Lemma topic_fields_checks self title summary key_points significance t :
  let l1 := Re.findall (pattern t) title in
  let l2 := Re.findall (pattern t) summary in
  let l3 := Re.findall (pattern t) ((key_points +:+ " ") +:+ significance) in
  topic_fields self (VStr title) (VStr summary) key_points (VStr significance) t
  = (acc1 ← field_check self t l1
       (fun w => m ← getitem (scoring self) "title_match_multiplier";
                 Ok (distinct_count l1 * w * m)) (0, []);
     acc2 ← field_check self t l2
       (fun w => m ← getitem (scoring self) "summary_match_multiplier";
                 Ok (distinct_count l2 * w * m)) acc1;
     field_check self t l3 (fun w => Ok (distinct_count l3 * w)) acc2).
Proof.
  intros l1 l2 l3. unfold topic_fields, field_check, findall_value, str_add.
  cbv zeta. cbn [mbind result_bind].
  destruct (priority t) as [p|]; cbn [item mbind result_bind];
    fold l1 l2 l3.
  - destruct (_get_priority_weight self p) as [w|e];
      destruct (truthy l1), (truthy l2), (truthy l3);
      destruct (getitem (scoring self) "title_match_multiplier");
      destruct (getitem (scoring self) "summary_match_multiplier");
      reflexivity.
  - destruct (truthy l1), (truthy l2), (truthy l3); reflexivity.
Qed.

Lemma field_check_matches self t found fs acc acc' :
  field_check self t found fs acc = Ok acc' -> snd acc' = snd acc ++ found.
Proof.
  unfold field_check. destruct found as [|x found]; simpl.
  - intros H. injection H as <-. rewrite app_nil_r. reflexivity.
  - intros H.
    apply bind_Ok in H as (p & _ & H).
    apply bind_Ok in H as (w & _ & H).
    apply bind_Ok in H as (sc & _ & H).
    injection H as <-. reflexivity.
Qed.

Lemma topic_fields_matches self title summary key_points significance t ts tm :
  topic_fields self (VStr title) (VStr summary) key_points (VStr significance) t
  = Ok (ts, tm) ->
  tm = Re.findall (pattern t) title ++ Re.findall (pattern t) summary
       ++ Re.findall (pattern t) ((key_points +:+ " ") +:+ significance).
Proof.
  rewrite topic_fields_checks. cbv zeta. intros H.
  apply bind_Ok in H as (acc1 & H1 & H).
  apply bind_Ok in H as (acc2 & H2 & H).
  apply field_check_matches in H1, H2, H. simpl in H, H1.
  rewrite H, H2, H1. rewrite <- app_assoc. reflexivity.
Qed.

Lemma truthy_app {A} (l1 l2 : list A) :
  truthy (l1 ++ l2) = truthy l1 || truthy l2.
Proof. destruct l1, l2; reflexivity. Qed.

Lemma has_match_truthy post t :
  truthy (topic_matches_of post t) = has_match post t.
Proof.
  unfold topic_matches_of, has_match.
  rewrite !truthy_app, !findall_truthy, orb_assoc. reflexivity.
Qed.

Lemma interest_step_Ok self title summary key_points significance
    score matches t score' matches' :
  interest_step self (VStr title) (VStr summary) key_points (VStr significance)
    (score, matches) t = Ok (score', matches') ->
  let tm := Re.findall (pattern t) title ++ Re.findall (pattern t) summary
            ++ Re.findall (pattern t) ((key_points +:+ " ") +:+ significance) in
  (truthy tm = false /\ score' = score /\ matches' = matches)
  \/ (truthy tm = true
      /\ exists name p ts,
           topic_name t = Some name /\ priority t = Some p
           /\ score' = score + ts
           /\ matches' =
                {| matched_topics :=
                     matched_topics matches
                     ++ [{| mt_topic := name; mt_priority := p;
                            mt_score := ts |}];
                   matched_keywords :=
                     matched_keywords matches ++ list_set tm;
                   exclude_matches := exclude_matches matches;
                   score_breakdown :=
                     <[name := ts]> (score_breakdown matches) |}).
Proof.
  intros H tm. unfold interest_step in H.
  apply bind_Ok in H as ([ts tm'] & Hf & H).
  apply topic_fields_matches in Hf. fold tm in Hf. subst tm'.
  destruct (truthy tm) eqn:E.
  - right. split; [reflexivity|].
    apply bind_Ok in H as (name & Hn & H).
    apply bind_Ok in H as (p & Hp & H).
    injection H as <- <-.
    exists name, p, ts.
    destruct (topic_name t); [|discriminate]. injection Hn as ->.
    destruct (priority t); [|discriminate]. injection Hp as ->.
    auto.
  - left. injection H as <- <-. auto.
Qed.

(** The entries the interest loop appends: one per interest with a match,
    in the order of the configuration. *)
Lemma interest_loop self title summary key_points significance ts :
  let tm := fun t =>
    Re.findall (pattern t) title ++ Re.findall (pattern t) summary
    ++ Re.findall (pattern t) ((key_points +:+ " ") +:+ significance) in
  let matched := List.filter (fun t => truthy (tm t)) ts in
  forall score matches score' matches',
    for_each ts
      (interest_step self (VStr title) (VStr summary) key_points
         (VStr significance)) (score, matches) = Ok (score', matches') ->
    exists entries,
      matched_topics matches' = matched_topics matches ++ entries
      /\ Forall2 (fun e t => topic_name t = Some (mt_topic e)
                             /\ priority t = Some (mt_priority e))
           entries matched
      /\ matched_keywords matches'
         = matched_keywords matches
           ++ concat (map (fun t => list_set (tm t)) matched)
      /\ exclude_matches matches' = exclude_matches matches.
Proof.
  intros tm matched. subst matched.
  induction ts as [|t ts IH]; intros score matches score' matches' H.
  - simpl in H. injection H as <- <-. exists []. simpl.
    rewrite !app_nil_r. auto.
  - cbn [for_each] in H.
    apply bind_Ok in H as ([score1 matches1] & Hstep & H).
    apply IH in H as (entries & Ht & Hall & Hk & He).
    apply interest_step_Ok in Hstep. fold (tm t) in Hstep.
    cbn [List.filter].
    destruct Hstep as [(E & -> & ->)|(E & name & p & sc & Hn & Hp & -> & ->)];
      rewrite E.
    + exists entries. auto.
    + cbn [matched_topics matched_keywords exclude_matches] in Ht, Hk, He.
      exists ({| mt_topic := name; mt_priority := p; mt_score := sc |}
              :: entries).
      split; [rewrite Ht, <- app_assoc; reflexivity|].
      split; [constructor; auto|].
      split; [|exact He].
      rewrite Hk. cbn [map concat]. rewrite <- app_assoc. reflexivity.
Qed.

Lemma exclusion_loop_no_hits self title summary excludes score matches :
  List.filter (fun t => Re.search (pattern t) ((title +:+ " ") +:+ summary))
    excludes = [] ->
  for_each excludes (exclusion_step self (VStr title) (VStr summary))
    (score, matches) = Ok (score, matches).
Proof.
  induction excludes as [|t excludes IH]; intros H; [reflexivity|].
  cbn [List.filter] in H. cbn [for_each exclusion_step add str_add].
  rewrite !bind_ret.
  destruct (Re.search (pattern t) ((title +:+ " ") +:+ summary));
    [discriminate|].
  rewrite bind_ret. apply IH, H.
Qed.

(** What [score_post] returns when no exclusion topic fires and the
    penalty is negative: the result of the interest loop. *)
Lemma score_post_interest_pass self post penalty :
  document_ok post = true ->
  scoring self !! "exclude_penalty" = Some penalty ->
  penalty < 0 ->
  exclusion_hits self post = [] ->
  score_post self post
  = for_each (interests self)
      (interest_step self (VStr (text_field post "title"))
         (VStr (text_field post "ai_summary"))
         (join " " (list_field post "key_points"))
         (VStr (text_field post "significance")))
      (0, {| matched_topics := []; matched_keywords := [];
             exclude_matches := []; score_breakdown := ∅ |}).
Proof.
  intros Hdoc Hp Hneg Hhits.
  destruct (document_fields post Hdoc) as (Ht & Hs & Hk & Hg).
  unfold score_post. rewrite Ht, Hs, Hk, Hg, bind_ret.
  rewrite exclusion_loop_no_hits by exact Hhits.
  rewrite bind_ret. cbv beta iota zeta.
  rewrite (proj2 (getitem_Ok _ _ _) Hp), bind_ret.
  destruct (Z.leb_spec 0 penalty); [lia|reflexivity].
Qed.

Lemma filter_has_match post topics :
  List.filter (fun t => truthy (topic_matches_of post t)) topics
  = List.filter (has_match post) topics.
Proof. apply List.filter_ext. intros t. apply has_match_truthy. Qed.

(** C5, as the code has it. In the interest pass an interest topic gets
    an entry in [matched_topics] exactly when at least one of its keywords
    matches in the title, the summary or the key points and significance:
    the entries are, in configuration order, the interests with a match,
    whatever their [topic_score]. *)
Theorem matched_topics_iff_match self post penalty score matches :
  document_ok post = true ->
  scoring self !! "exclude_penalty" = Some penalty ->
  penalty < 0 ->
  exclusion_hits self post = [] ->
  score_post self post = Ok (score, matches) ->
  Forall2 (fun e t => topic_name t = Some (mt_topic e)
                      /\ priority t = Some (mt_priority e))
    (matched_topics matches)
    (List.filter (has_match post) (interests self)).
Proof.
  intros Hdoc Hp Hneg Hhits H.
  rewrite (score_post_interest_pass self post penalty Hdoc Hp Hneg Hhits) in H.
  apply interest_loop in H as (entries & Ht & Hall & _ & _).
  cbn [matched_topics app] in Ht. rewrite Ht.
  rewrite <- filter_has_match. exact Hall.
Qed.

Lemma list_set_NoDup l : NoDup (list_set l).
Proof. rewrite list_set_perm. apply NoDup_remove_dups. Qed.

Lemma elem_of_list_set l x : x ∈ list_set l <-> x ∈ l.
Proof. rewrite list_set_perm. apply elem_of_remove_dups. Qed.

Lemma list_set_groups post topics :
  Forall2 (fun group t =>
             NoDup group /\ same_elements group (topic_matches_of post t))
    (map (fun t => list_set (topic_matches_of post t)) topics) topics.
Proof.
  induction topics as [|t topics IH]; cbn [map]; constructor; [|exact IH].
  split; [apply list_set_NoDup|]. intros x. apply elem_of_list_set.
Qed.

(** C6, as the code has it. [matched_keywords] is the concatenation, in
    configuration order, of one group per matched interest topic; a group
    lists, in an order that is not specified, the distinct strings the
    topic matched in title, summary and the other fields: each of them,
    and each once even when it was found in several fields. *)
Theorem matched_keywords_distinct_per_topic self post penalty score matches :
  document_ok post = true ->
  scoring self !! "exclude_penalty" = Some penalty ->
  penalty < 0 ->
  exclusion_hits self post = [] ->
  score_post self post = Ok (score, matches) ->
  exists groups,
    matched_keywords matches = concat groups
    /\ Forall2 (fun group t =>
                  NoDup group
                  /\ same_elements group (topic_matches_of post t))
         groups (List.filter (has_match post) (interests self)).
Proof.
  intros Hdoc Hp Hneg Hhits H.
  rewrite (score_post_interest_pass self post penalty Hdoc Hp Hneg Hhits)
    in H.
  apply interest_loop in H as (entries & _ & _ & Hk & _).
  cbn [matched_keywords app] in Hk.
  exists (map (fun t => list_set (topic_matches_of post t))
            (List.filter (has_match post) (interests self))).
  split; [|apply list_set_groups].
  rewrite Hk, <- filter_has_match. reflexivity.
Qed.

End ScoringInterestPass.

Lemma matched_topics_iff_match_witness :
  Forall2 (fun e t => topic_name t = Some (mt_topic e)
                      /\ priority t = Some (mt_priority e))
    (matched_topics Examples.robot_matches)
    (List.filter (has_match Examples.robot_post) (interests Examples.loaded)).
Proof.
  apply (matched_topics_iff_match Examples.loaded Examples.robot_post (-50) 10).
  - vm_compute. reflexivity.
  - vm_compute. reflexivity.
  - lia.
  - vm_compute. reflexivity.
  - vm_compute. reflexivity.
Defined.

(** C5 as stated fails: with the weights at 0 the topic matched in the
    title has [topic_score] 0 and still gets its entry. *)
Lemma matched_topics_counterexample :
  score_post Examples.zero_weights Examples.robot_post
  = Ok (0,
        {| matched_topics :=
             [{| mt_topic := "robotics"; mt_priority := "high";
                 mt_score := 0 |}];
           matched_keywords := ["robot"];
           exclude_matches := [];
           score_breakdown := {[ "robotics" := 0 ]} |}).
Proof. vm_compute. reflexivity. Qed.

Lemma matched_keywords_distinct_per_topic_witness :
  exists groups,
    matched_keywords Examples.robot_matches = concat groups
    /\ Forall2 (fun group t =>
                  NoDup group
                  /\ same_elements group
                       (topic_matches_of Examples.robot_post t))
         groups
         (List.filter (has_match Examples.robot_post)
            (interests Examples.loaded)).
Proof.
  apply (matched_keywords_distinct_per_topic Examples.loaded
           Examples.robot_post (-50) 10).
  - reflexivity.
  - reflexivity.
  - lia.
  - reflexivity.
  - reflexivity.
Defined.

(** C6 as stated fails: a keyword listed under two interest topics is
    recorded once for each. *)
Lemma matched_keywords_counterexample :
  (matched_keywords ∘ snd <$>
     score_post Examples.shared_keyword Examples.robot_post)
  = Ok ["robot"; "robot"]
  /\ ~ NoDup ["robot"; "robot"].
Proof.
  split; [vm_compute; reflexivity|].
  intros H. apply NoDup_cons in H as [H _]. apply H. left.
Qed.

(** ** Scoring depends on the sets of matches only *)

Section ScoringDependsSetsMatches.

Context {order : SetOrder}.

Lemma same_elements_truthy l1 l2 :
  same_elements l1 l2 -> truthy l1 = truthy l2.
Proof.
  intros H. destruct l1 as [|x l1], l2 as [|y l2]; try reflexivity.
  - exfalso. apply (not_elem_of_nil y), H. left.
  - exfalso. apply (not_elem_of_nil x), H. left.
Qed.

Lemma same_elements_distinct_count l1 l2 :
  same_elements l1 l2 -> distinct_count l1 = distinct_count l2.
Proof.
  intros H. unfold distinct_count. f_equal.
  apply Permutation_length, NoDup_Permutation; try apply NoDup_remove_dups.
  intros x. rewrite !elem_of_remove_dups. apply H.
Qed.

Lemma outcome_eq r1 r2 :
  outcome r1 = outcome r2
  <-> match r1, r2 with
      | Ok acc, Ok acc' => agree acc acc'
      | Raise e, Raise e' => e = e'
      | _, _ => False
      end.
Proof.
  unfold outcome, agree.
  destruct r1 as [[s1 m1]|e1], r2 as [[s2 m2]|e2]; cbn; split;
    try discriminate; try tauto.
  - intros H. injection H as -> ->. auto.
  - intros [-> ->]. reflexivity.
  - intros H. injection H as ->. reflexivity.
  - intros ->. reflexivity.
Qed.

Lemma outcome_bind r1 r2 (k1 k2 : Z * list string -> result (Z * list string)) :
  outcome r1 = outcome r2 ->
  (forall acc acc', agree acc acc' -> outcome (k1 acc) = outcome (k2 acc')) ->
  outcome (r1 ≫= k1) = outcome (r2 ≫= k2).
Proof.
  intros H Hk. apply outcome_eq in H.
  destruct r1 as [acc|e1], r2 as [acc'|e2]; try contradiction.
  - rewrite !bind_ret. apply Hk, H.
  - subst e2. reflexivity.
Qed.

Lemma field_check_outcome self t l l' fs fs' acc acc' :
  truthy l = truthy l' ->
  (forall w, fs w = fs' w) ->
  agree acc acc' ->
  outcome (field_check self t l fs acc)
  = outcome (field_check self t l' fs' acc').
Proof.
  intros Hl Hfs [Hs Hm]. unfold field_check. rewrite <- Hl.
  destruct (truthy l) eqn:E.
  - destruct (item (priority t) "priority") as [p|e]; [|reflexivity].
    rewrite !bind_ret.
    destruct (_get_priority_weight self p) as [w|e]; [|reflexivity].
    rewrite !bind_ret, <- Hfs.
    destruct (fs w) as [sc|e]; [|reflexivity].
    rewrite !bind_ret. apply outcome_eq. split; cbn.
    + rewrite Hs. reflexivity.
    + rewrite !truthy_app, <- Hl, E, !orb_true_r. reflexivity.
  - apply outcome_eq. split; assumption.
Qed.

Lemma topic_fields_outcome self t title title' summary summary'
    key_points key_points' significance significance' :
  same_elements (Re.findall (pattern t) title)
    (Re.findall (pattern t) title') ->
  same_elements (Re.findall (pattern t) summary)
    (Re.findall (pattern t) summary') ->
  same_elements
    (Re.findall (pattern t) ((key_points +:+ " ") +:+ significance))
    (Re.findall (pattern t) ((key_points' +:+ " ") +:+ significance')) ->
  outcome (topic_fields self (VStr title) (VStr summary) key_points
             (VStr significance) t)
  = outcome (topic_fields self (VStr title') (VStr summary') key_points'
               (VStr significance') t).
Proof.
  intros H1 H2 H3. rewrite !topic_fields_checks. cbv zeta.
  apply outcome_bind.
  { apply field_check_outcome.
    - apply same_elements_truthy, H1.
    - intros w. rewrite (same_elements_distinct_count _ _ H1). reflexivity.
    - split; reflexivity. }
  intros acc1 acc1' Ha1. apply outcome_bind.
  { apply field_check_outcome.
    - apply same_elements_truthy, H2.
    - intros w. rewrite (same_elements_distinct_count _ _ H2). reflexivity.
    - exact Ha1. }
  intros acc2 acc2' Ha2. apply field_check_outcome.
  - apply same_elements_truthy, H3.
  - intros w. rewrite (same_elements_distinct_count _ _ H3). reflexivity.
  - exact Ha2.
Qed.

Lemma fst_fmap_eq {B} (r1 r2 : result (Z * B)) :
  fst <$> r1 = fst <$> r2
  <-> match r1, r2 with
      | Ok st, Ok st' => fst st = fst st'
      | Raise e, Raise e' => e = e'
      | _, _ => False
      end.
Proof.
  destruct r1 as [[s1 m1]|e1], r2 as [[s2 m2]|e2]; cbn; split;
    try discriminate; try tauto; intros H;
    try (injection H as ->); subst; reflexivity.
Qed.

Lemma interest_step_score self t title title' summary summary'
    key_points key_points' significance significance' st st' :
  outcome (topic_fields self (VStr title) (VStr summary) key_points
             (VStr significance) t)
  = outcome (topic_fields self (VStr title') (VStr summary') key_points'
               (VStr significance') t) ->
  fst st = fst st' ->
  fst <$> interest_step self (VStr title) (VStr summary) key_points
            (VStr significance) st t
  = fst <$> interest_step self (VStr title') (VStr summary') key_points'
              (VStr significance') st' t.
Proof.
  intros H Hst. destruct st as [score matches], st' as [score' matches'].
  cbn in Hst. subst score'. unfold interest_step. apply outcome_eq in H.
  destruct (topic_fields self (VStr title) _ _ _ t) as [[ts tm]|e],
    (topic_fields self (VStr title') _ _ _ t) as [[ts' tm']|e'];
    try contradiction.
  - destruct H as [Hs Hm]. cbn in Hs, Hm. subst ts'.
    rewrite !bind_ret. rewrite <- Hm.
    destruct (truthy tm); [|reflexivity].
    destruct (item (topic_name t) "topic") as [name|e]; [|reflexivity].
    destruct (item (priority t) "priority") as [p|e]; reflexivity.
  - subst e'. reflexivity.
Qed.

Lemma for_each_score {A B} (f g : Z * B -> A -> result (Z * B)) xs :
  (forall x st st', x ∈ xs -> fst st = fst st' ->
     fst <$> f st x = fst <$> g st' x) ->
  forall st st', fst st = fst st' ->
    fst <$> for_each xs f st = fst <$> for_each xs g st'.
Proof.
  induction xs as [|x xs IH]; intros Hstep st st' Hst.
  - cbn. rewrite Hst. reflexivity.
  - cbn [for_each].
    assert (Hx := Hstep x st st' (list_elem_of_here _ _) Hst).
    apply fst_fmap_eq in Hx.
    destruct (f st x) as [st1|e], (g st' x) as [st1'|e']; try contradiction.
    + rewrite !bind_ret. apply IH; [|exact Hx].
      intros y s s' Hy. apply Hstep. right. exact Hy.
    + subst e'. reflexivity.
Qed.

Lemma exclusion_loop_search self title title' summary summary' excludes st :
  (forall t, t ∈ excludes ->
     Re.search (pattern t) ((title +:+ " ") +:+ summary)
     = Re.search (pattern t) ((title' +:+ " ") +:+ summary')) ->
  for_each excludes (exclusion_step self (VStr title) (VStr summary)) st
  = for_each excludes (exclusion_step self (VStr title') (VStr summary')) st.
Proof.
  revert st. induction excludes as [|t excludes IH]; intros st H;
    [reflexivity|].
  cbn [for_each].
  assert (Hstep : exclusion_step self (VStr title) (VStr summary) st t
                  = exclusion_step self (VStr title') (VStr summary') st t).
  { destruct st as [score matches]. cbn [exclusion_step add str_add].
    rewrite !bind_ret, (H t (list_elem_of_here _ _)). reflexivity. }
  rewrite Hstep.
  destruct (exclusion_step self (VStr title') (VStr summary') st t);
    [|reflexivity].
  rewrite !bind_ret. apply IH. intros t' Ht'. apply H. right. exact Ht'.
Qed.

(** The score depends on each field only through the set of distinct
    strings each interest matches in it, spelled as in the document: two
    documents with the same exclusion hits and, for every interest and
    field, the same set of matched strings get the same score. *)
Lemma score_depends_on_match_sets self post post' :
  document_ok post = true ->
  document_ok post' = true ->
  (forall t, t ∈ exclude_topics self ->
     Re.search (pattern t) (exclusion_text post)
     = Re.search (pattern t) (exclusion_text post')) ->
  (forall t, t ∈ interests self ->
     same_elements (Re.findall (pattern t) (text_field post "title"))
       (Re.findall (pattern t) (text_field post' "title"))
     /\ same_elements (Re.findall (pattern t) (text_field post "ai_summary"))
          (Re.findall (pattern t) (text_field post' "ai_summary"))
     /\ same_elements (Re.findall (pattern t) (other_text post))
          (Re.findall (pattern t) (other_text post'))) ->
  fst <$> score_post self post = fst <$> score_post self post'.
Proof.
  intros Hdoc Hdoc' Hex Hin.
  destruct (document_fields post Hdoc) as (Ht & Hs & Hk & Hg).
  destruct (document_fields post' Hdoc') as (Ht' & Hs' & Hk' & Hg').
  unfold score_post.
  rewrite Ht, Hs, Hk, Hg, Ht', Hs', Hk', Hg', !bind_ret.
  rewrite (exclusion_loop_search self _ (text_field post' "title")
             _ (text_field post' "ai_summary")) by exact Hex.
  destruct (for_each (exclude_topics self) _ _) as [[score matches]|e];
    [|reflexivity].
  rewrite !bind_ret. cbv beta iota.
  destruct (getitem (scoring self) "exclude_penalty") as [penalty|e];
    [|reflexivity].
  rewrite !bind_ret.
  destruct (score <=? penalty); [reflexivity|].
  apply for_each_score; [|reflexivity].
  intros t st st' Hti Hst.
  destruct (Hin t Hti) as (H1 & H2 & H3).
  apply interest_step_score; [|exact Hst].
  apply topic_fields_outcome; assumption.
Qed.

End ScoringDependsSetsMatches.

(** C7. The code counts the distinct spellings it matched, not the
    distinct keywords.  With the single keyword ["robot"] matched in the
    title, one occurrence scores 10 and three occurrences in the same
    spelling score 10 as well, but three occurrences in three letter
    cases, which the case-insensitive pattern matches alike, score 30. *)
Theorem repeated_keyword_in_other_case_counts_again :
  text_field Examples.single_post "title" = "robot"
  /\ text_field Examples.repeated_post "title" = "robot robot robot"
  /\ text_field Examples.mixed_case_post "title" = "robot Robot ROBOT"
  /\ (fst <$> score_post Examples.loaded Examples.single_post) = Ok 10
  /\ (fst <$> score_post Examples.loaded Examples.repeated_post) = Ok 10
  /\ (fst <$> score_post Examples.loaded Examples.mixed_case_post) = Ok 30.
Proof. repeat split; reflexivity. Qed.

(** ** Scoring never raises on documents *)

Section ScoringNeverRaisesDocuments.

Context {order : SetOrder}.

Lemma has_key_Some (d : gmap string Z) key :
  has_key d key = true -> exists v, d !! key = Some v.
Proof. unfold has_key. destruct (d !! key); [eauto|discriminate]. Qed.

Lemma well_formed_scoring self key :
  well_formed self = true -> key ∈ scoring_keys ->
  exists v, getitem (scoring self) key = Ok v.
Proof.
  unfold well_formed. intros H Hk.
  apply andb_prop in H as [H _]. apply andb_prop in H as [H _].
  rewrite forallb_forall in H. apply list_elem_of_In in Hk.
  destruct (has_key_Some _ _ (H key Hk)) as [v Hv].
  exists v. apply getitem_Ok, Hv.
Qed.

Lemma well_formed_interest self t :
  well_formed self = true -> t ∈ interests self ->
  exists name p, topic_name t = Some name /\ priority t = Some p.
Proof.
  unfold well_formed. intros H Ht.
  apply andb_prop in H as [H _]. apply andb_prop in H as [_ H].
  rewrite forallb_forall in H. apply list_elem_of_In in Ht.
  specialize (H t Ht). apply andb_prop in H as [Hn Hp].
  destruct (topic_name t), (priority t); try discriminate. eauto.
Qed.

Lemma well_formed_named self :
  well_formed self = true -> named (exclude_topics self) = true.
Proof. unfold well_formed. intros H. apply andb_prop in H as [_ H]. exact H. Qed.

Lemma get_priority_weight_returns self p :
  well_formed self = true -> returns (_get_priority_weight self p).
Proof.
  intros Hwf. unfold _get_priority_weight.
  destruct (well_formed_scoring self "high_priority_weight" Hwf) as [h Hh];
    [set_solver|].
  destruct (well_formed_scoring self "medium_priority_weight" Hwf) as [m Hm];
    [set_solver|].
  destruct (well_formed_scoring self "low_priority_weight" Hwf) as [l Hl];
    [set_solver|].
  rewrite Hh, Hm, Hl, !bind_ret. eexists. reflexivity.
Qed.

Lemma field_check_returns self t found fs acc p :
  well_formed self = true ->
  priority t = Some p ->
  (forall w, returns (fs w)) ->
  returns (field_check self t found fs acc).
Proof.
  intros Hwf Hp Hfs. unfold field_check.
  destruct (truthy found); [|eexists; reflexivity].
  rewrite Hp. cbn [item]. rewrite bind_ret.
  destruct (get_priority_weight_returns self p Hwf) as [w Hw].
  rewrite Hw, bind_ret.
  destruct (Hfs w) as [sc Hsc]. rewrite Hsc, bind_ret.
  eexists. reflexivity.
Qed.

Lemma topic_fields_returns self title summary key_points significance t p :
  well_formed self = true ->
  priority t = Some p ->
  returns (topic_fields self (VStr title) (VStr summary) key_points
             (VStr significance) t).
Proof.
  intros Hwf Hp. rewrite topic_fields_checks. cbv zeta.
  destruct (well_formed_scoring self "title_match_multiplier" Hwf)
    as [m1 Hm1]; [set_solver|].
  destruct (well_formed_scoring self "summary_match_multiplier" Hwf)
    as [m2 Hm2]; [set_solver|].
  edestruct (field_check_returns self t) as [acc1 H1]; [exact Hwf|exact Hp| |].
  2: rewrite H1, bind_ret.
  { intros w. rewrite Hm1, bind_ret. eexists. reflexivity. }
  edestruct (field_check_returns self t) as [acc2 H2]; [exact Hwf|exact Hp| |].
  2: rewrite H2, bind_ret.
  { intros w. rewrite Hm2, bind_ret. eexists. reflexivity. }
  apply (field_check_returns self t _ _ _ p Hwf Hp).
  intros w. eexists. reflexivity.
Qed.

Lemma interest_step_returns self title summary key_points significance st t :
  well_formed self = true ->
  t ∈ interests self ->
  returns (interest_step self (VStr title) (VStr summary) key_points
             (VStr significance) st t).
Proof.
  intros Hwf Ht. destruct st as [score matches].
  destruct (well_formed_interest self t Hwf Ht) as (name & p & Hn & Hp).
  unfold interest_step.
  destruct (topic_fields_returns self title summary key_points significance
              t p Hwf Hp) as [[ts tm] Hf].
  rewrite Hf, bind_ret.
  destruct (truthy tm); [|eexists; reflexivity].
  rewrite Hn, Hp. cbn [item]. rewrite !bind_ret. eexists. reflexivity.
Qed.

Lemma for_each_returns {A S} (f : S -> A -> result S) xs :
  (forall x s, x ∈ xs -> returns (f s x)) ->
  forall s, returns (for_each xs f s).
Proof.
  induction xs as [|x xs IH]; intros H s.
  - eexists. reflexivity.
  - cbn [for_each]. destruct (H x s (list_elem_of_here _ _)) as [s' Hs'].
    rewrite Hs', bind_ret. apply IH. intros y s0 Hy. apply H. right. exact Hy.
Qed.

Lemma score_post_returns self post :
  well_formed self = true -> document_ok post = true ->
  returns (score_post self post).
Proof.
  intros Hwf Hdoc.
  destruct (document_fields post Hdoc) as (Ht & Hs & Hk & Hg).
  destruct (well_formed_scoring self "exclude_penalty" Hwf) as [pen Hpen];
    [set_solver|].
  unfold score_post. rewrite Ht, Hs, Hk, Hg, bind_ret.
  rewrite (exclusion_loop self _ _ pen _ 0 _
             (proj1 (getitem_Ok _ _ _) Hpen) (well_formed_named self Hwf)).
  rewrite bind_ret. cbv beta iota zeta. rewrite Hpen, bind_ret.
  match goal with |- context [if ?b then _ else _] => destruct b end.
  - eexists. reflexivity.
  - apply for_each_returns. intros t st Hti.
    apply interest_step_returns; assumption.
Qed.

Lemma get_with_defaults post :
  get (with_defaults post) "title" (VStr "") = get post "title" (VStr "")
  /\ get (with_defaults post) "ai_summary" (VStr "")
     = get post "ai_summary" (VStr "")
  /\ get (with_defaults post) "key_points" (VList [])
     = get post "key_points" (VList [])
  /\ get (with_defaults post) "significance" (VStr "")
     = get post "significance" (VStr "").
Proof.
  unfold with_defaults. repeat split.
  - unfold get at 1. rewrite lookup_insert_eq. reflexivity.
  - unfold get at 1. rewrite lookup_insert_ne, lookup_insert_eq by done.
    reflexivity.
  - unfold get at 1.
    rewrite lookup_insert_ne, lookup_insert_ne, lookup_insert_eq by done.
    reflexivity.
  - unfold get at 1.
    rewrite lookup_insert_ne, lookup_insert_ne, lookup_insert_ne,
      lookup_insert_eq by done.
    reflexivity.
Qed.

Lemma score_post_with_defaults self post :
  score_post self (with_defaults post) = score_post self post.
Proof.
  destruct (get_with_defaults post) as (Ht & Hs & Hk & Hg).
  unfold score_post. rewrite Ht, Hs, Hk, Hg. reflexivity.
Qed.

Lemma enhanced_post_returns self post :
  well_formed self = true -> document_ok post = true ->
  returns (enhanced_post self post).
Proof.
  intros Hwf Hdoc. unfold enhanced_post.
  destruct (score_post_returns self post Hwf Hdoc) as [[score matches] Hs].
  destruct (well_formed_scoring self "minimum_score_threshold" Hwf)
    as [thr Hthr]; [set_solver|].
  rewrite Hs, bind_ret, Hthr, bind_ret. eexists. reflexivity.
Qed.

Lemma filter_posts_returns self posts :
  well_formed self = true -> forallb document_ok posts = true ->
  returns (filter_posts self posts).
Proof.
  intros Hwf Hdocs. unfold filter_posts.
  destruct (collect_returns (enhanced_post self) posts) as [annotated Ha].
  { apply Forall_forall. intros post Hp. apply enhanced_post_returns; auto.
    rewrite forallb_forall in Hdocs. apply Hdocs, list_elem_of_In, Hp. }
  rewrite Ha, bind_ret.
  assert (Hk : collect relevance_score_key annotated
               = Ok (map relevance_score_of annotated)).
  { apply collect_Forall2 in Ha. apply Forall2_collect.
    clear -Ha. induction Ha as [|p a ps az Hpa _ IH]; cbn [map];
      constructor; auto.
    eapply enhanced_post_key, Hpa. }
  rewrite Hk, bind_ret. eexists. reflexivity.
Qed.

(** C9, as the code has it. Under a configuration that has every key the
    scoring code reads, [score_post] and [filter_posts] return a result
    for every document whose title, summary and significance are each
    absent or a string and whose key points are absent or a list of
    strings: a field that is absent is scored as its empty value. *)
Theorem scoring_never_raises self post posts :
  well_formed self = true ->
  document_ok post = true ->
  forallb document_ok posts = true ->
  returns (score_post self post)
  /\ score_post self post = score_post self (with_defaults post)
  /\ returns (filter_posts self posts).
Proof.
  intros Hwf Hdoc Hdocs. split; [apply score_post_returns; assumption|].
  split; [symmetry; apply score_post_with_defaults|].
  apply filter_posts_returns; assumption.
Qed.

End ScoringNeverRaisesDocuments.

Lemma scoring_never_raises_witness :
  returns (score_post Examples.loaded Examples.robot_post_2)
  /\ score_post Examples.loaded Examples.robot_post_2
     = score_post Examples.loaded (with_defaults Examples.robot_post_2)
  /\ returns (filter_posts Examples.loaded Examples.three_posts).
Proof.
  apply (scoring_never_raises Examples.loaded Examples.robot_post_2
           Examples.three_posts).
  - vm_compute. reflexivity.
  - vm_compute. reflexivity.
  - vm_compute. reflexivity.
Defined.

(** C9 as stated fails: a field that is present with another type is
    not replaced by its empty value.  A document whose significance is
    [None] makes [score_post] and [filter_posts] raise [TypeError] under a
    configuration that has every key. *)
Lemma scoring_never_raises_counterexample :
  well_formed Examples.loaded = true
  /\ Cases.null_significance_post !! "significance" = Some VNone
  /\ score_post Examples.loaded Cases.null_significance_post = Raise TypeError
  /\ filter_posts Examples.loaded [Cases.null_significance_post]
     = Raise TypeError.
Proof. repeat split; reflexivity. Qed.

(** ** Loading the configuration *)

Lemma collect_compile_topic_raises topics :
  (exists e, collect compile_topic topics = Raise e)
  <-> exists t, t ∈ topics /\ rt_keywords t = None.
Proof.
  induction topics as [|t topics IH]; cbn [collect].
  - split; [intros [e H]; discriminate|intros (t & Ht & _); inversion Ht].
  - destruct (rt_keywords t) as [kws|] eqn:E.
    + assert (Hc : compile_topic t
                   = Ok {| topic_name := rt_topic t; priority := rt_priority t;
                           keywords := kws; pattern := Re.compile kws |})
        by (unfold compile_topic; rewrite E; reflexivity).
      rewrite Hc, bind_ret.
      destruct (collect compile_topic topics) as [ys|e'] eqn:C;
        cbn [mbind result_bind].
      * split; [intros [e H]; discriminate|].
        intros (t' & Ht' & Hk).
        apply elem_of_cons in Ht' as [->|Ht']; [congruence|].
        destruct (proj2 IH (ex_intro _ t' (conj Ht' Hk))) as [e He].
        discriminate.
      * split; [|intros _; eexists; reflexivity].
        intros _.
        destruct (proj1 IH (ex_intro _ e' eq_refl)) as (t' & Ht' & Hk).
        exists t'. split; [right; exact Ht'|exact Hk].
    + assert (Hc : compile_topic t = Raise (KeyError "keywords"))
        by (unfold compile_topic; rewrite E; reflexivity).
      rewrite Hc. split; [|intros _; eexists; reflexivity].
      intros _. exists t. split; [left|exact E].
Qed.

(** On a file that follows the schema, loading fails exactly when the
    file cannot be read or parsed, when [interests] or [scoring] is
    missing, or when some topic has no [keywords] entry. *)
Lemma typed_init_fails config_file :
  (exists e, __init__ config_file = Raise e)
  <-> config_file = Unreadable \/ config_file = Unparsable
      \/ exists config,
           config_file = Parsed config
           /\ (rc_interests config = None \/ rc_scoring config = None
               \/ exists t, t ∈ topics_of config /\ rt_keywords t = None).
Proof.
  destruct config_file as [| |config]; cbn [__init__].
    + split; [auto|]. intros _. eexists. reflexivity.
    + split; [auto|]. intros _. eexists. reflexivity.
    + unfold topics_of, _compile_patterns.
      destruct (rc_interests config) as [ins|] eqn:Ei; cbn [item default].
      2: { split; [|intros _; eexists; reflexivity].
           intros _. right. right. exists config. auto. }
      rewrite bind_ret.
      destruct (rc_scoring config) as [sc|] eqn:Es; cbn [item].
      2: { split; [|intros _; eexists; reflexivity].
           intros _. right. right. exists config. auto. }
      rewrite bind_ret.
      split.
      * intros [e H]. right. right. exists config.
        split; [reflexivity|]. right. right.
        rewrite Ei. cbn [default].
        destruct (collect compile_topic ins) as [ins1|e1] eqn:C1.
        -- rewrite bind_ret in H.
           destruct (collect compile_topic (default [] (rc_exclude_topics config)))
             as [es|e2] eqn:C2; [discriminate|].
           destruct (proj1 (collect_compile_topic_raises _)
                       (ex_intro _ e2 C2)) as (t & Ht & Hk).
           exists t. split; [apply elem_of_app; right; exact Ht|exact Hk].
        -- destruct (proj1 (collect_compile_topic_raises _)
                       (ex_intro _ e1 C1)) as (t & Ht & Hk).
           exists t. split; [apply elem_of_app; left; exact Ht|exact Hk].
      * intros [H|[H|(config' & Hc & H)]]; try discriminate.
        injection Hc as <-.
        destruct H as [H|[H|(t & Ht & Hk)]]; try congruence.
        rewrite Ei in Ht. cbn [default] in Ht.
        apply elem_of_app in Ht as [Ht|Ht].
        -- destruct (proj2 (collect_compile_topic_raises ins)
                       (ex_intro _ t (conj Ht Hk))) as [e He].
           rewrite He. exists e. reflexivity.
        -- destruct (proj2 (collect_compile_topic_raises _)
                       (ex_intro _ t (conj Ht Hk))) as [e He].
           rewrite He.
           destruct (collect compile_topic ins); eexists; reflexivity.
Qed.

Lemma other_priority_weighs_one self p w :
  _get_priority_weight self p = Ok w ->
  p <> "high" -> p <> "medium" -> p <> "low" -> w = 1.
Proof.
  intros H Hh Hm Hl. unfold _get_priority_weight in H.
    apply bind_Ok in H as (high & _ & H).
    apply bind_Ok in H as (medium & _ & H).
    apply bind_Ok in H as (low & _ & H).
    injection H as <-.
    destruct (String.eqb_spec p "high"); [contradiction|].
    destruct (String.eqb_spec p "medium"); [contradiction|].
    destruct (String.eqb_spec p "low"); [contradiction|].
    reflexivity.
Qed.

Lemma collect_escape_strings kws :
  collect Json.escape (map Json.JStr kws) = Ok kws.
Proof.
  induction kws as [|kw kws IH]; [reflexivity|].
  cbn [map collect Json.escape]. rewrite bind_ret, IH. reflexivity.
Qed.

Lemma compile_topic_of_topic t :
  Json.compile_topic (json_of_topic t) = topic_object <$> compile_topic t.
Proof.
  destruct t as [[n|] [p|] [kws|]]; unfold compile_topic;
    cbn -[collect Re.compile]; rewrite ?collect_escape_strings; reflexivity.
Qed.

Lemma collect_of_topics ts :
  collect Json.compile_topic (map json_of_topic ts)
  = map topic_object <$> collect compile_topic ts.
Proof.
  induction ts as [|t ts IH]; [reflexivity|].
  cbn [map collect]. rewrite compile_topic_of_topic, IH.
  destruct (compile_topic t); [|reflexivity].
  destruct (collect compile_topic ts); reflexivity.
Qed.

Lemma lookup_config_fields c :
  Json.lookup (json_config_fields c) "interests"
  = (fun l => Json.JList (map json_of_topic l)) <$> rc_interests c
  /\ Json.lookup (json_config_fields c) "exclude_topics"
     = (fun l => Json.JList (map json_of_topic l)) <$> rc_exclude_topics c
  /\ Json.lookup (json_config_fields c) "scoring"
     = json_of_scoring <$> rc_scoring c.
Proof. destruct c as [[ins|] [exs|] [sc|]]; repeat split; reflexivity. Qed.

Lemma compile_patterns_of_topics ins exs :
  Json._compile_patterns (Json.JList (map json_of_topic ins))
    (Json.JList (map json_of_topic exs))
  = (fun p => (map topic_object (fst p), map topic_object (snd p)))
    <$> _compile_patterns ins exs.
Proof.
  unfold Json._compile_patterns, _compile_patterns. cbn [Json.iter].
  rewrite bind_ret, collect_of_topics.
  destruct (collect compile_topic ins); [|reflexivity].
  cbn [fmap result_fmap mbind result_bind]. rewrite collect_of_topics.
  destruct (collect compile_topic exs); reflexivity.
Qed.

(** On a file that follows the schema the loader does what the typed
    [__init__] does: the same failure, or the same filter. *)
Lemma init_of_source config_file :
  Json.__init__ (json_of_source config_file)
  = filter_object <$> __init__ config_file.
Proof.
  destruct config_file as [| |c]; [reflexivity|reflexivity|].
  cbn [json_of_source json_of_config Json.__init__ __init__].
  destruct (lookup_config_fields c) as (-> & -> & ->).
  destruct (rc_interests c) as [ins|]; [|reflexivity].
  destruct (rc_scoring c) as [sc|]; [|reflexivity].
  cbn [fmap option_fmap option_map item mbind result_bind].
  assert (He : default (Json.JList [])
                 ((fun l => Json.JList (map json_of_topic l))
                    <$> rc_exclude_topics c)
               = Json.JList (map json_of_topic (default [] (rc_exclude_topics c))))
    by (destruct (rc_exclude_topics c); reflexivity).
  rewrite He, compile_patterns_of_topics.
  destruct (_compile_patterns ins (default [] (rc_exclude_topics c))) as [[a b]|e];
    reflexivity.
Qed.

Lemma iter_items v :
  Json.iter v = if Json.iterable v then Ok (Json.items v) else Raise TypeError.
Proof. destruct v; reflexivity. Qed.

Lemma escape_fails kw :
  (exists e, Json.escape kw = Raise e) <-> Json.is_str kw = false.
Proof.
  destruct kw; cbn; split; try discriminate; eauto.
  all: intros [e H]; discriminate.
Qed.

Lemma iterate_fails {B} (v : Json.json) (f : Json.json -> result B) :
  (exists e, (xs ← Json.iter v; collect f xs) = Raise e)
  <-> Json.iterable v = false
      \/ exists x, x ∈ Json.items v /\ exists e, f x = Raise e.
Proof.
  rewrite iter_items. destruct (Json.iterable v) eqn:E.
  - rewrite bind_ret, collect_fails. split; [auto|].
    intros [H|H]; [discriminate|exact H].
  - cbn [mbind result_bind]. split; [auto|]. intros _. eauto.
Qed.

Lemma compile_topic_fails t :
  (exists e, Json.compile_topic t = Raise e) <-> Json.unusable_topic t.
Proof.
  destruct t as [| | | | |d]; cbn [Json.compile_topic Json.unusable_topic];
    try solve [split; [tauto|intros _; eauto]].
  destruct (Json.lookup d "keywords") as [keywords|]; cbn [item];
    [|split; [tauto|intros _; eauto]].
  rewrite bind_ret.
  transitivity (exists e, (xs ← Json.iter keywords; collect Json.escape xs)
                          = Raise e).
  - destruct (Json.iter keywords) as [kws|e]; cbn [mbind result_bind];
      [|split; intros _; eauto].
    destruct (collect Json.escape kws) as [escaped|e0];
      cbn [mbind result_bind]; split; intros [e' H]; try discriminate; eauto.
  - rewrite iterate_fails. split.
    + intros [H|(kw & Hk & He)]; [left; exact H|].
      right. exists kw. split; [exact Hk|]. apply escape_fails, He.
    + intros [H|(kw & Hk & He)]; [left; exact H|].
      right. exists kw. split; [exact Hk|]. apply escape_fails, He.
Qed.

Lemma compile_topics_fails v :
  (exists e, (its ← Json.iter v; collect Json.compile_topic its) = Raise e)
  <-> Json.unusable_topics v.
Proof.
  rewrite iterate_fails. unfold Json.unusable_topics. split.
  - intros [H|(t & Ht & He)]; [left; exact H|].
    right. exists t. split; [exact Ht|]. apply compile_topic_fails, He.
  - intros [H|(t & Ht & He)]; [left; exact H|].
    right. exists t. split; [exact Ht|]. apply compile_topic_fails, He.
Qed.

Lemma compile_patterns_fails i x :
  (exists e, Json._compile_patterns i x = Raise e)
  <-> Json.unusable_topics i \/ Json.unusable_topics x.
Proof.
  rewrite <- !compile_topics_fails. unfold Json._compile_patterns.
  destruct (Json.iter i) as [its|e1]; cbn [mbind result_bind];
    [|split; [intros _; left; eauto|intros _; eauto]].
  destruct (collect Json.compile_topic its) as [ins|e2]; cbn [mbind result_bind];
    [|split; [intros _; left; eauto|intros _; eauto]].
  destruct (Json.iter x) as [ets|e3]; cbn [mbind result_bind];
    [|split; [intros _; right; eauto|intros _; eauto]].
  destruct (collect Json.compile_topic ets) as [exs|e4]; cbn [mbind result_bind];
    [|split; [intros _; right; eauto|intros _; eauto]].
  split; [intros [e H]; discriminate|].
  intros [[e H]|[e H]]; discriminate.
Qed.

Lemma json_init_fails config_file :
  (exists e, Json.__init__ config_file = Raise e)
  <-> config_file = Json.Unreadable \/ config_file = Json.Unparsable
      \/ exists root, config_file = Json.Parsed root /\ Json.unloadable root.
Proof.
  destruct config_file as [| |root]; cbn [Json.__init__].
  - split; [auto|intros _; eauto].
  - split; [auto|intros _; eauto].
  - transitivity (Json.unloadable root).
    2:{ split.
        - intros H. right. right. exists root. auto.
        - intros [H|[H|(r & [= <-] & H)]]; [discriminate|discriminate|exact H]. }
    destruct root as [| | | | |config]; cbn [Json.unloadable];
      try solve [split; [auto|intros _; eauto]].
    destruct (Json.lookup config "interests") as [ins|]; cbn [item];
      [|split; [auto|intros _; eauto]].
    rewrite bind_ret.
    destruct (Json.lookup config "scoring") as [sc|]; cbn [item];
      [|split; [auto|intros _; eauto]].
    rewrite bind_ret.
    transitivity (exists e,
                    Json._compile_patterns ins
                      (default (Json.JList []) (Json.lookup config "exclude_topics"))
                    = Raise e).
    { destruct (Json._compile_patterns ins _) as [[a b]|e];
        cbn [mbind result_bind]; split; intros [e' H]; try discriminate; eauto. }
    rewrite compile_patterns_fails. split.
    + intros [H|H]; [right; right; left; eauto|].
      destruct (Json.lookup config "exclude_topics") as [x|]; cbn [default] in H.
      * right. right. right. eauto.
      * destruct H as [H|(t & Ht & _)]; [discriminate|inversion Ht].
    + intros [H|[H|[(v & [= <-] & H)|(v & Hv & H)]]]; try discriminate.
      * left. exact H.
      * right. rewrite Hv. exact H.
Qed.

Lemma fmap_fails {A B} (f : A -> B) (r : result A) :
  (exists e, f <$> r = Raise e) <-> exists e, r = Raise e.
Proof. destruct r; split; intros [e' H]; try discriminate; eauto. Qed.

(** C2, as the code has it.  Loading fails exactly when the file cannot
    be read or parsed, or the parsed file is one the loader cannot use:
    its root is not an object; [interests] or [scoring] is missing;
    [interests], or [exclude_topics] when present, is null, a number or a
    boolean, or has an item that is not an object, that has no [keywords]
    entry, or whose [keywords] is null, a number or a boolean or has an
    item that is not a string (the items of a list are its elements,
    those of a string its characters, those of an object its keys).  For
    a file that follows the schema this
    leaves: unreadable, unparsable, [interests] or [scoring] missing, a
    topic without [keywords].  Nothing else is checked: an empty keyword
    list, a priority outside high, medium and low (it weighs 1 when
    scoring) and the constants of [scoring] are accepted as they come. *)
Theorem init_fails_iff :
  (forall config_file,
     (exists e, Json.__init__ config_file = Raise e)
     <-> config_file = Json.Unreadable \/ config_file = Json.Unparsable
         \/ exists root,
              config_file = Json.Parsed root /\ Json.unloadable root)
  /\ (forall config_file,
        (exists e, Json.__init__ (json_of_source config_file) = Raise e)
        <-> config_file = Unreadable \/ config_file = Unparsable
            \/ exists config,
                 config_file = Parsed config
                 /\ (rc_interests config = None \/ rc_scoring config = None
                     \/ exists t,
                          t ∈ topics_of config /\ rt_keywords t = None))
  /\ (forall self p w,
        _get_priority_weight self p = Ok w ->
        p <> "high" -> p <> "medium" -> p <> "low" -> w = 1).
Proof.
  split; [exact json_init_fails|]. split; [|exact other_priority_weighs_one].
  intros config_file. rewrite init_of_source, fmap_fails.
  apply typed_init_fails.
Qed.

Lemma init_fails_iff_witness :
  (exists e, Json.__init__ Json.Unreadable = Raise e)
  /\ (exists e, Json.__init__ (Json.Parsed Cases.null_exclusions_file)
                = Raise e).
Proof.
  split.
  - apply (proj2 (proj1 init_fails_iff Json.Unreadable)). left. reflexivity.
  - apply (proj2 (proj1 init_fails_iff _)). right. right.
    eexists. split; [reflexivity|].
    right. right. right. exists Json.JNull. split; [reflexivity|].
    left. reflexivity.
Defined.

(** C2 as stated fails: a configuration with an empty keyword list, a
    priority outside high, medium and low and no scoring constant loads. *)
Lemma init_counterexample :
  Json.__init__ (Json.Parsed Cases.lax_file)
  = Ok {| Json.interests :=
            [{| Json.fields :=
                  [("topic", Json.JStr "misc");
                   ("priority", Json.JStr "urgent");
                   ("keywords", Json.JList [])];
                Json.pattern := [Re.Eps] |}];
          Json.exclude_topics := [];
          Json.scoring := Json.JObj [] |}.
Proof. reflexivity. Qed.

(** ** The inputs of [filter_posts] are left as they were *)

Section InputsLeft.

Context {order : SetOrder}.

Lemma enhanced_post_annotates self post a :
  enhanced_post self post = Ok a -> annotates self post a.
Proof.
  intros H.
  apply enhanced_post_inv in H as (score & matches & thr & Hs & Ht & ->).
  split.
  - intros key H1 H2 H3. rewrite !lookup_insert_ne by congruence. reflexivity.
  - exists score, matches, thr. split; [exact Hs|]. split; [exact Ht|].
    split; [|split].
    + rewrite lookup_insert_ne, lookup_insert_ne, lookup_insert_eq by done.
      reflexivity.
    + rewrite lookup_insert_ne, lookup_insert_eq by done. reflexivity.
    + rewrite lookup_insert_eq. reflexivity.
Qed.

Lemma filter_posts_annotates self posts out :
  filter_posts self posts = Ok out ->
  exists annotated,
    out ≡ₚ annotated /\ Forall2 (annotates self) posts annotated.
Proof.
  intros H. apply filter_posts_inv in H as (annotated & Hall & ->).
  exists annotated. split; [apply sort_by_key_perm|].
  eapply Forall2_impl; [exact Hall|].
  intros post a Ha. apply enhanced_post_annotates, Ha.
Qed.

Lemma collect_map {A B C} (f : B -> result C) (g : A -> B) xs :
  collect f (map g xs) = collect (fun x => f (g x)) xs.
Proof.
  induction xs as [|x xs IH]; cbn [map collect]; [reflexivity|].
  rewrite IH. reflexivity.
Qed.

Lemma insert_reverse_map {A B} (f : A -> B) (x : Z * A) l :
  insert_reverse (fst x, f (snd x)) (map (fun p => (fst p, f (snd p))) l)
  = map (fun p => (fst p, f (snd p))) (insert_reverse x l).
Proof.
  induction l as [|y l IH]; cbn [map insert_reverse fst snd]; [reflexivity|].
  destruct (fst x <? fst y); cbn [map fst snd]; [|reflexivity].
  rewrite IH. reflexivity.
Qed.

Lemma sort_reverse_map {A B} (f : A -> B) (l : list (Z * A)) :
  sort_reverse (map (fun p => (fst p, f (snd p))) l)
  = map (fun p => (fst p, f (snd p))) (sort_reverse l).
Proof.
  induction l as [|x l IH]; cbn [map sort_reverse]; [reflexivity|].
  rewrite IH. apply insert_reverse_map.
Qed.

Lemma zip_map_snd {A B} (f : A -> B) (keys : list Z) (l : list A) :
  zip keys (map f l) = map (fun p => (fst p, f (snd p))) (zip keys l).
Proof.
  revert l. induction keys as [|k keys IH]; intros [|a l];
    cbn; try reflexivity.
  rewrite IH. reflexivity.
Qed.

Lemma sort_reverse_objects {A B} (f : A -> B) (keys : list Z) (l : list A) :
  map snd (sort_reverse (zip keys (map f l)))
  = map f (map snd (sort_reverse (zip keys l))).
Proof.
  rewrite zip_map_snd, sort_reverse_map, !map_map. reflexivity.
Qed.

Lemma deref_weaken h h' l :
  h ⊆ h' -> is_Some (h !! l) -> deref h' l = deref h l.
Proof.
  intros Hsub [d Hd]. unfold deref.
  rewrite (lookup_weaken _ _ _ _ Hd Hsub), Hd. reflexivity.
Qed.

Lemma alloc_fresh (h : gmap positive (gmap string value)) :
  h !! fresh (dom h) = None.
Proof. apply not_elem_of_dom, is_fresh. Qed.

(** The loop allocates one dictionary per post and changes nothing that
    was in the store. *)
Lemma enhance_loop self posts :
  forall h acc h' out,
    Forall (fun l => is_Some (h !! l)) posts ->
    for_each posts (enhance_step self) (h, acc) = Ok (h', out) ->
    h ⊆ h'
    /\ exists new,
         out = acc ++ new
         /\ collect (enhanced_post self) (map (deref h) posts)
            = Ok (map (deref h') new)
         /\ Forall (fun l => h !! l = None) new.
Proof.
  induction posts as [|post posts IH]; intros h acc h' out Hvalid H.
  - cbn in H. injection H as <- <-. split; [reflexivity|].
    exists []. rewrite app_nil_r. repeat split. constructor.
  - cbn [for_each enhance_step] in H.
    apply bind_Ok in H as ([h1 acc1] & Hstep & H).
    apply bind_Ok in Hstep as (enhanced & He & Hstep).
    unfold alloc in Hstep. cbv zeta in Hstep. injection Hstep as <- <-.
    set (l := fresh (dom h)) in *.
    assert (Hl : h !! l = None) by apply alloc_fresh.
    assert (Hsub : h ⊆ <[l := enhanced]> h) by (apply insert_subseteq, Hl).
    inversion Hvalid as [|? ? Hpost Hposts]; subst.
    apply IH in H as (Hsub' & new & -> & Hc & Hnew).
    2: { eapply Forall_impl; [exact Hposts|].
         intros p [d Hd]. exists d. eapply lookup_weaken; eassumption. }
    split; [etrans; eassumption|].
    exists (l :: new). split; [rewrite <- app_assoc; reflexivity|].
    split.
    + cbn [map collect]. rewrite He, bind_ret.
      assert (Hmap : map (deref h) posts
                     = map (deref (<[l := enhanced]> h)) posts).
      { apply map_ext_in. intros p Hp. symmetry.
        apply deref_weaken; [exact Hsub|].
        rewrite Forall_forall in Hposts. apply Hposts, list_elem_of_In, Hp. }
      rewrite Hmap, Hc, bind_ret. do 2 f_equal.
      unfold deref.
      rewrite (lookup_weaken _ _ l enhanced (lookup_insert_eq _ _ _) Hsub').
      reflexivity.
    + constructor; [exact Hl|].
      eapply Forall_impl; [exact Hnew|].
      intros p Hp. eapply lookup_weaken_None; [exact Hp|exact Hsub].
Qed.

(** C10. [filter_posts] changes no dictionary it is given, nor any other
    one in memory: it allocates new ones. Each new dictionary has every
    key of its post with the same value, except [relevance_score],
    [relevance_matches] and [is_relevant], which are set from the score
    whether or not the post already had them. On the dictionaries read
    from memory the result is the one of [filter_posts] on values. *)
Theorem filter_posts_frame self h posts h' out :
  Forall (fun l => is_Some (h !! l)) posts ->
  filter_posts_objects self h posts = Ok (h', out) ->
  (forall l d, h !! l = Some d -> h' !! l = Some d)
  /\ Forall (fun l => h !! l = None) out
  /\ filter_posts self (map (deref h) posts) = Ok (map (deref h') out)
  /\ exists annotated,
       map (deref h') out ≡ₚ annotated
       /\ Forall2 (annotates self) (map (deref h) posts) annotated.
Proof.
  intros Hvalid H. unfold filter_posts_objects in H.
  apply bind_Ok in H as ([h1 filtered] & Hloop & H).
  apply bind_Ok in H as (keys & Hkeys & H). injection H as <- <-.
  apply enhance_loop in Hloop as (Hsub & new & Hnew & Hc & Hfresh);
    [|exact Hvalid].
  cbn [app] in Hnew. subst filtered.
  assert (Hpure : filter_posts self (map (deref h) posts)
                  = Ok (map (deref h1)
                          (map snd (sort_reverse (zip keys new))))).
  { unfold filter_posts. rewrite Hc, bind_ret, collect_map, Hkeys, bind_ret.
    rewrite sort_reverse_objects. reflexivity. }
  split; [intros l d Hd; eapply lookup_weaken; eassumption|].
  split.
  { apply Forall_forall. intros l Hl. rewrite Forall_forall in Hfresh.
    apply Hfresh. apply list_elem_of_In in Hl.
    apply in_map_iff in Hl as ([k l'] & <- & Hin).
    apply list_elem_of_In.
    assert (Hp : (k, l') ∈ zip keys new).
    { rewrite <- (sort_reverse_perm (zip keys new)).
      apply list_elem_of_In, Hin. }
    apply list_elem_of_In in Hp. apply in_combine_r in Hp. exact Hp. }
  split; [exact Hpure|].
  apply filter_posts_annotates in Hpure. exact Hpure.
Qed.

End InputsLeft.

Lemma filter_posts_frame_witness :
  (forall l d, Examples.memory !! l = Some d ->
               Examples.memory_after !! l = Some d)
  /\ Forall (fun l => Examples.memory !! l = None) Examples.ranked_objects
  /\ filter_posts Examples.loaded
       (map (deref Examples.memory) [1; 2; 3]%positive)
     = Ok (map (deref Examples.memory_after) Examples.ranked_objects)
  /\ exists annotated,
       map (deref Examples.memory_after) Examples.ranked_objects ≡ₚ annotated
       /\ Forall2 (annotates Examples.loaded)
            (map (deref Examples.memory) [1; 2; 3]%positive) annotated.
Proof.
  apply (filter_posts_frame Examples.loaded Examples.memory
           [1; 2; 3]%positive).
  - repeat constructor; eexists; reflexivity.
  - reflexivity.
Defined.

(** ** More on the matchers *)

Lemma findall_from_empty_pattern prev text :
  Re.findall_from [Re.Eps] prev text 0
  = replicate (S (String.length text)) "".
Proof.
  revert prev. induction text as [|c text IH]; intros prev.
  - reflexivity.
  - cbn [Re.findall_from Re.matches_here Re.first_match Re.branch_match
         orb Re.nonempty String.length replicate app].
    rewrite IH. reflexivity.
Qed.

Lemma remove_dups_replicate (s : string) n :
  remove_dups (replicate (S n) s) = [s].
Proof.
  induction n as [|n IH]; [reflexivity|].
  change (replicate (S (S n)) s) with (s :: replicate (S n) s).
  cbn [remove_dups]. destruct (decide_rel _ _ _) as [_|H]; [exact IH|].
  exfalso. apply H. left.
Qed.

Lemma lower_lower c : Re.lower (Re.lower c) = Re.lower c.
Proof.
  destruct c as [[] [] [] [] [] [] [] []]; reflexivity.
Qed.

Lemma is_word_lower c : Re.is_word (Re.lower c) = Re.is_word c.
Proof.
  destruct c as [[] [] [] [] [] [] [] []]; reflexivity.
Qed.

Lemma literal_fold_text kw text :
  Re.literal kw (Re.fold_case text) = fold_pair (Re.literal kw text).
Proof.
  revert text. induction kw as [|k kw IH]; intros text; [reflexivity|].
  destruct text as [|c text]; [reflexivity|].
  cbn [Re.literal Re.fold_case]. rewrite lower_lower.
  destruct (Ascii.eqb _ _); [|reflexivity].
  rewrite IH. destruct (Re.literal kw text) as [[m r]|]; reflexivity.
Qed.

Lemma literal_fold_keyword kw text :
  Re.literal (Re.fold_case kw) text = Re.literal kw text.
Proof.
  revert text. induction kw as [|k kw IH]; intros text; [reflexivity|].
  destruct text as [|c text]; [reflexivity|].
  cbn [Re.literal Re.fold_case]. rewrite lower_lower, IH. reflexivity.
Qed.

Lemma word_opt_lower o : Re.word_opt (Re.lower <$> o) = Re.word_opt o.
Proof. destruct o; [apply is_word_lower|reflexivity]. Qed.

Lemma head_fold s : Re.head (Re.fold_case s) = Re.lower <$> Re.head s.
Proof. destruct s; reflexivity. Qed.

Lemma last_of_fold prev m :
  Re.last_of (Re.lower <$> prev) (Re.fold_case m)
  = Re.lower <$> Re.last_of prev m.
Proof.
  revert prev. induction m as [|c m IH]; intros prev; [reflexivity|].
  cbn [Re.last_of Re.fold_case]. apply (IH (Some c)).
Qed.

Lemma boundary_lower p n :
  Re.boundary (Re.lower <$> p) (Re.lower <$> n) = Re.boundary p n.
Proof. unfold Re.boundary. rewrite !word_opt_lower. reflexivity. Qed.

Lemma branch_match_fold_text b prev text :
  Re.branch_match b (Re.lower <$> prev) (Re.fold_case text)
  = fold_pair (Re.branch_match b prev text).
Proof.
  destruct b as [|kw]; [reflexivity|].
  cbn [Re.branch_match].
  rewrite head_fold, boundary_lower, literal_fold_text.
  destruct (Re.boundary prev (Re.head text)); [|reflexivity].
  destruct (Re.literal kw text) as [[m r]|]; [|reflexivity].
  cbn [fold_pair]. rewrite last_of_fold, head_fold, boundary_lower.
  destruct (Re.boundary _ _); reflexivity.
Qed.

Lemma nonempty_fold m : Re.nonempty (Re.fold_case m) = Re.nonempty m.
Proof. destruct m; reflexivity. Qed.

Lemma first_match_fold_text allow pat prev text :
  Re.first_match allow pat (Re.lower <$> prev) (Re.fold_case text)
  = fold_pair (Re.first_match allow pat prev text).
Proof.
  induction pat as [|b pat IH]; [reflexivity|].
  cbn [Re.first_match]. rewrite branch_match_fold_text.
  destruct (Re.branch_match b prev text) as [[m r]|]; cbn [fold_pair]; [|exact IH].
  rewrite nonempty_fold. destruct (allow || Re.nonempty m); [reflexivity|exact IH].
Qed.

Lemma search_from_unfold pat prev text :
  Re.search_from pat prev text
  = match Re.first_match true pat prev text with
    | Some _ => true
    | None =>
        match text with
        | EmptyString => false
        | String c text' => Re.search_from pat (Some c) text'
        end
    end.
Proof. destruct text; reflexivity. Qed.

Lemma search_from_fold_text pat prev text :
  Re.search_from pat (Re.lower <$> prev) (Re.fold_case text)
  = Re.search_from pat prev text.
Proof.
  revert prev. induction text as [|c text IH]; intros prev;
    rewrite (search_from_unfold _ _ (Re.fold_case _)), first_match_fold_text,
      (search_from_unfold pat prev);
    destruct (Re.first_match true pat prev _) as [[m r]|]; try reflexivity.
  apply (IH (Some c)).
Qed.

Lemma branch_match_fold_keyword kw prev text :
  Re.branch_match (Re.Word (Re.fold_case kw)) prev text
  = Re.branch_match (Re.Word kw) prev text.
Proof. cbn [Re.branch_match]. rewrite literal_fold_keyword. reflexivity. Qed.

Lemma first_match_fold_keywords allow kws prev text :
  Re.first_match allow (map Re.Word (map Re.fold_case kws)) prev text
  = Re.first_match allow (map Re.Word kws) prev text.
Proof.
  induction kws as [|kw kws IH]; [reflexivity|].
  cbn [map Re.first_match]. rewrite branch_match_fold_keyword, IH. reflexivity.
Qed.

Lemma compile_fold_keywords kws :
  forall allow prev text,
    Re.first_match allow (Re.compile (map Re.fold_case kws)) prev text
    = Re.first_match allow (Re.compile kws) prev text.
Proof.
  destruct kws as [|kw kws]; [reflexivity|].
  intros. apply (first_match_fold_keywords allow (kw :: kws)).
Qed.

Lemma search_from_ext pat pat' :
  (forall prev text, Re.first_match true pat prev text
                     = Re.first_match true pat' prev text) ->
  forall prev text, Re.search_from pat prev text = Re.search_from pat' prev text.
Proof.
  intros H prev text. revert prev.
  induction text as [|c text IH]; intros prev; cbn [Re.search_from];
    rewrite H; [reflexivity|].
  rewrite IH. reflexivity.
Qed.

Lemma findall_from_ext pat pat' :
  (forall allow prev text, Re.first_match allow pat prev text
                           = Re.first_match allow pat' prev text) ->
  forall text prev skip,
    Re.findall_from pat prev text skip = Re.findall_from pat' prev text skip.
Proof.
  intros H text. induction text as [|c text IH]; intros prev skip.
  - destruct skip; [|reflexivity].
    cbn [Re.findall_from]. unfold Re.matches_here. rewrite !H. reflexivity.
  - destruct skip as [|k]; cbn [Re.findall_from].
    + unfold Re.matches_here. rewrite !H.
      destruct (Re.first_match true pat' prev (String c text)) as [[[|a m] r]|].
      * destruct (Re.first_match false pat' prev (String c text)) as [[m' r']|];
          rewrite IH; reflexivity.
      * rewrite IH. reflexivity.
      * rewrite IH. reflexivity.
    + apply IH.
Qed.

(** X3. For ASCII text and keywords, letter case never matters to the
    matchers: a keyword list is found in a text exactly when it is found
    in the lower-cased text, and lower-casing the keywords changes neither
    [search] nor [findall]. *)
Theorem search_ignores_case kws text :
  Re.ascii_text text = true ->
  forallb Re.ascii_text kws = true ->
  Re.search (Re.compile kws) (Re.fold_case text) = Re.search (Re.compile kws) text
  /\ Re.search (Re.compile (map Re.fold_case kws)) text
     = Re.search (Re.compile kws) text
  /\ Re.findall (Re.compile (map Re.fold_case kws)) text
     = Re.findall (Re.compile kws) text.
Proof.
  intros _ _. split; [|split].
  - apply (search_from_fold_text _ None).
  - apply search_from_ext. intros. apply compile_fold_keywords.
  - apply findall_from_ext. intros. apply compile_fold_keywords.
Qed.

Lemma search_ignores_case_witness :
  Re.search (Re.compile ["Robot"]) (Re.fold_case "the ROBOT arm")
  = Re.search (Re.compile ["Robot"]) "the ROBOT arm"
  /\ Re.search (Re.compile (map Re.fold_case ["Robot"])) "the ROBOT arm"
     = Re.search (Re.compile ["Robot"]) "the ROBOT arm"
  /\ Re.findall (Re.compile (map Re.fold_case ["Robot"])) "the ROBOT arm"
     = Re.findall (Re.compile ["Robot"]) "the ROBOT arm".
Proof.
  apply (search_ignores_case ["Robot"] "the ROBOT arm").
  - reflexivity.
  - reflexivity.
Defined.

Lemma first_match_keyword allow kws prev text m r :
  Re.first_match allow (map Re.Word kws) prev text = Some (m, r) ->
  exists k, k ∈ kws /\ Re.fold_case m = Re.fold_case k.
Proof.
  induction kws as [|kw kws IH]; [discriminate|].
  cbn [map Re.first_match].
  destruct (Re.branch_match (Re.Word kw) prev text) as [[m' r']|] eqn:E.
  - destruct (allow || Re.nonempty m').
    + intros [= -> ->]. apply branch_match_Word in E.
      exists kw. split; [left|tauto].
    + intros H. destruct (IH H) as (k & Hk & Hf). exists k. split; [right|]; auto.
  - intros H. destruct (IH H) as (k & Hk & Hf). exists k. split; [right|]; auto.
Qed.

Lemma matches_here_keyword kws prev text m :
  m ∈ fst (Re.matches_here (map Re.Word kws) prev text) ->
  exists k, k ∈ kws /\ Re.fold_case m = Re.fold_case k.
Proof.
  unfold Re.matches_here.
  destruct (Re.first_match true _ prev text) as [[m1 r1]|] eqn:E1.
  - destruct m1 as [|a m1].
    + destruct (Re.first_match false _ prev text) as [[m2 r2]|] eqn:E2;
        cbn [fst]; intros Hm.
      * apply elem_of_cons in Hm as [->|Hm];
          [eapply first_match_keyword; exact E1|].
        apply list_elem_of_singleton in Hm as ->.
        eapply first_match_keyword; exact E2.
      * apply list_elem_of_singleton in Hm as ->.
        eapply first_match_keyword; exact E1.
    + cbn [fst]. intros Hm. apply list_elem_of_singleton in Hm as ->.
      eapply first_match_keyword; exact E1.
  - cbn [fst]. intros Hm. apply elem_of_nil in Hm as [].
Qed.

Lemma findall_from_keyword kws text :
  forall prev skip m,
    m ∈ Re.findall_from (map Re.Word kws) prev text skip ->
    exists k, k ∈ kws /\ Re.fold_case m = Re.fold_case k.
Proof.
  induction text as [|c text IH]; intros prev skip m.
  - destruct skip; cbn [Re.findall_from].
    + pose proof (matches_here_keyword kws prev "" m) as H.
      destruct (Re.matches_here _ prev "") as [found adv]. exact H.
    + intros H. apply elem_of_nil in H as [].
  - destruct skip as [|k]; cbn [Re.findall_from].
    + pose proof (matches_here_keyword kws prev (String c text) m) as H.
      destruct (Re.matches_here _ prev (String c text)) as [found adv].
      intros Hm. apply elem_of_app in Hm as [Hm|Hm]; [exact (H Hm)|].
      exact (IH _ _ _ Hm).
    + apply IH.
Qed.

(** X4. For ASCII text and keywords, every string [findall] reports for
    a non-empty keyword list is one of the keywords, up to letter case:
    the matcher never reports text that is not a keyword. *)
Theorem findall_reports_keywords kw kws text m :
  Re.ascii_text text = true ->
  forallb Re.ascii_text (kw :: kws) = true ->
  m ∈ Re.findall (Re.compile (kw :: kws)) text ->
  exists k, k ∈ kw :: kws /\ same_word m k.
Proof.
  intros _ _ H. apply findall_from_keyword in H as (k & Hk & H).
  exists k. split; [exact Hk|]. apply fold_case_spec, H.
Qed.

Lemma findall_reports_keywords_witness :
  exists k, k ∈ ["robot"; "robotics"] /\ same_word "Robot" k.
Proof.
  apply (findall_reports_keywords "robot" ["robotics"] "the Robot arm" "Robot").
  - reflexivity.
  - reflexivity.
  - vm_compute. constructor.
Defined.

Lemma empty_pattern_matches text :
  Re.search [Re.Eps] text = true
  /\ Re.findall [Re.Eps] text = replicate (S (String.length text)) ""
  /\ distinct_count (Re.findall [Re.Eps] text) = 1.
Proof.
  assert (H : Re.findall [Re.Eps] text = replicate (S (String.length text)) "")
    by apply findall_from_empty_pattern.
  split; [|split; [exact H|]].
  - rewrite <- findall_truthy, H. reflexivity.
  - unfold distinct_count. rewrite H, remove_dups_replicate. reflexivity.
Qed.

(** X2. The pattern compiled from an empty keyword list is the empty
    pattern: it is found in every text ([search] succeeds), [findall]
    reports one empty match per position of the text, one more than the
    text has characters, and these count as one distinct match. *)
Theorem empty_keyword_list_matches_everything text :
  Re.search (Re.compile []) text = true
  /\ Re.findall (Re.compile []) text = replicate (S (String.length text)) ""
  /\ distinct_count (Re.findall (Re.compile []) text) = 1.
Proof. exact (empty_pattern_matches text). Qed.

(** ** Scoring: what the score is made of *)

Section ScoringScoreMade.

Context {order : SetOrder}.

Lemma for_each_invariant {A S} (P : S -> Prop) (f : S -> A -> result S) xs :
  (forall s x s', f s x = Ok s' -> P s -> P s') ->
  forall s s', for_each xs f s = Ok s' -> P s -> P s'.
Proof.
  intros Hf. induction xs as [|x xs IH]; intros s s' H Hs; cbn [for_each] in H.
  - injection H as <-. exact Hs.
  - apply bind_Ok in H as (s1 & H1 & H). eauto.
Qed.

Lemma topic_total_app l e : topic_total (l ++ [e]) = topic_total l + mt_score e.
Proof.
  induction l as [|x l IH]; cbn [app topic_total foldr] in *; [lia|].
  fold (topic_total (l ++ [e])). fold (topic_total l). lia.
Qed.

Lemma exclusion_step_inv self title summary score matches ex score' matches' :
  exclusion_step self title summary (score, matches) ex = Ok (score', matches') ->
  (score' = score /\ matches' = matches)
  \/ exists name penalty,
       scoring self !! "exclude_penalty" = Some penalty
       /\ score' = score + penalty
       /\ matches'
          = {| matched_topics := matched_topics matches;
               matched_keywords := matched_keywords matches;
               exclude_matches := exclude_matches matches ++ [name];
               score_breakdown := score_breakdown matches |}.
Proof.
  unfold exclusion_step. intros H.
  apply bind_Ok in H as (t & _ & H). apply bind_Ok in H as (text & _ & H).
  destruct (Re.search (pattern ex) text).
  - apply bind_Ok in H as (name & _ & H). apply bind_Ok in H as (penalty & Hp & H).
    apply getitem_Ok in Hp. injection H as <- <-.
    right. exists name, penalty. auto.
  - injection H as <- <-. left. auto.
Qed.

Lemma interest_step_inv self title summary key_points significance
    score matches t score' matches' :
  interest_step self title summary key_points significance (score, matches) t
  = Ok (score', matches') ->
  (score' = score /\ matches' = matches)
  \/ exists name p ts found,
       score' = score + ts
       /\ matches'
          = {| matched_topics :=
                 matched_topics matches
                 ++ [{| mt_topic := name; mt_priority := p; mt_score := ts |}];
               matched_keywords := matched_keywords matches ++ found;
               exclude_matches := exclude_matches matches;
               score_breakdown := <[name := ts]> (score_breakdown matches) |}.
Proof.
  unfold interest_step. intros H.
  apply bind_Ok in H as ([ts tm] & _ & H).
  destruct (truthy tm).
  - apply bind_Ok in H as (name & _ & H). apply bind_Ok in H as (p & _ & H).
    injection H as <- <-. right. exists name, p, ts, (list_set tm). auto.
  - injection H as <- <-. left. auto.
Qed.

Lemma exclusion_step_accounted self title summary penalty st ex st' :
  scoring self !! "exclude_penalty" = Some penalty ->
  exclusion_step self title summary st ex = Ok st' ->
  accounted penalty st -> accounted penalty st'.
Proof.
  destruct st as [score matches], st' as [score' matches'].
  intros Hp H. apply exclusion_step_inv in H
    as [[-> ->]|(name & penalty' & Hp' & -> & ->)]; [auto|].
  unfold accounted. cbn [fst snd matched_topics exclude_matches]. intros ->.
  rewrite length_app. cbn [length].
  assert (penalty' = penalty) as -> by congruence. lia.
Qed.

Lemma interest_step_accounted self title summary key_points significance
    penalty st t st' :
  interest_step self title summary key_points significance st t = Ok st' ->
  accounted penalty st -> accounted penalty st'.
Proof.
  destruct st as [score matches], st' as [score' matches'].
  intros H. apply interest_step_inv in H
    as [[-> ->]|(name & p & ts & found & -> & ->)]; [auto|].
  unfold accounted. cbn [fst snd matched_topics exclude_matches]. intros ->.
  rewrite topic_total_app. cbn [mt_score]. lia.
Qed.

(** X7. Whenever [score_post] returns, the score is accounted for by the
    match details returned with it: it is [exclude_penalty] times the
    number of entries of [exclude_matches], plus the sum of the scores of
    the entries of [matched_topics]. *)
Theorem score_is_accounted self post score matches :
  score_post self post = Ok (score, matches) ->
  exists penalty,
    scoring self !! "exclude_penalty" = Some penalty
    /\ score = Z.of_nat (length (exclude_matches matches)) * penalty
               + topic_total (matched_topics matches).
Proof.
  unfold score_post. intros H.
  apply bind_Ok in H as (key_points & _ & H).
  apply bind_Ok in H as ([score1 matches1] & H1 & H).
  apply bind_Ok in H as (penalty & Hp & H).
  apply getitem_Ok in Hp. exists penalty. split; [exact Hp|].
  assert (A1 : accounted penalty (score1, matches1)).
  { eapply (for_each_invariant (accounted penalty)); [|exact H1|reflexivity].
    intros s x s' Hs. eapply exclusion_step_accounted; eauto. }
  destruct (score1 <=? penalty).
  - injection H as <- <-. exact A1.
  - eapply (for_each_invariant (accounted penalty)) in H; [exact H| |exact A1].
    intros s x s' Hs. eapply interest_step_accounted; eauto.
Qed.

Lemma exclusion_loop_topics self title summary excludes st st' :
  for_each excludes (exclusion_step self title summary) st = Ok st' ->
  matched_topics (snd st') = matched_topics (snd st)
  /\ score_breakdown (snd st') = score_breakdown (snd st).
Proof.
  intros H.
  eapply (for_each_invariant
            (fun s => matched_topics (snd s) = matched_topics (snd st)
                      /\ score_breakdown (snd s) = score_breakdown (snd st)));
    [|exact H|auto].
  intros [score matches] ex [score' matches'] Hs [Ht Hb].
  apply exclusion_step_inv in Hs as [[-> ->]|(name & p & _ & -> & ->)]; auto.
Qed.

Lemma interest_step_itemised self title summary key_points significance st t st' :
  interest_step self title summary key_points significance st t = Ok st' ->
  itemised st -> itemised st'.
Proof.
  destruct st as [score matches], st' as [score' matches'].
  intros H. apply interest_step_inv in H
    as [[-> ->]|(name & p & ts & found & -> & ->)]; [auto|].
  unfold itemised, breakdown_of. cbn [snd matched_topics score_breakdown].
  intros ->. rewrite foldl_snoc. reflexivity.
Qed.

(** X8. Whenever [score_post] returns, [score_breakdown] is either the
    single key ['exclusion_penalty'] holding the score, with
    [matched_topics] empty (the early return), or the dictionary obtained
    by assigning, in order, the score of every entry of [matched_topics]
    to its topic name, so that a later topic overwrites an earlier one of
    the same name. *)
Theorem score_breakdown_records_topics self post score matches :
  score_post self post = Ok (score, matches) ->
  (matched_topics matches = []
   /\ score_breakdown matches = {[ "exclusion_penalty" := score ]})
  \/ score_breakdown matches = breakdown_of (matched_topics matches).
Proof.
  unfold score_post. intros H.
  apply bind_Ok in H as (key_points & _ & H).
  apply bind_Ok in H as ([score1 matches1] & H1 & H).
  apply bind_Ok in H as (penalty & Hp & H).
  apply exclusion_loop_topics in H1 as [Ht Hb].
  cbn [snd matched_topics score_breakdown] in Ht, Hb.
  destruct (score1 <=? penalty).
  - injection H as <- <-. left.
    cbn [matched_topics score_breakdown]. rewrite Ht, Hb, insert_empty. auto.
  - right.
    eapply (for_each_invariant itemised) in H; [exact H| |].
    + intros s x s' Hs. eapply interest_step_itemised; eauto.
    + unfold itemised. cbn [snd]. rewrite Ht, Hb. reflexivity.
Qed.

Lemma for_each_app {A S} (f : S -> A -> result S) xs ys s :
  for_each (xs ++ ys) f s = (s' ← for_each xs f s; for_each ys f s').
Proof.
  revert s. induction xs as [|x xs IH]; intros s; cbn [app for_each].
  - reflexivity.
  - destruct (f s x) as [s1|e]; cbn [mbind result_bind]; [apply IH|reflexivity].
Qed.

Lemma has_match_false post t :
  has_match post t = false ->
  Re.findall (pattern t) (text_field post "title") = []
  /\ Re.findall (pattern t) (text_field post "ai_summary") = []
  /\ Re.findall (pattern t) (other_text post) = [].
Proof.
  rewrite <- has_match_truthy. unfold topic_matches_of.
  destruct (Re.findall (pattern t) (text_field post "title")); [|discriminate].
  destruct (Re.findall (pattern t) (text_field post "ai_summary")); [|discriminate].
  destruct (Re.findall (pattern t) (other_text post)); [|discriminate]. auto.
Qed.

Lemma interest_step_no_match self post t st :
  has_match post t = false ->
  interest_step self (VStr (text_field post "title"))
    (VStr (text_field post "ai_summary"))
    (join " " (list_field post "key_points"))
    (VStr (text_field post "significance")) st t
  = Ok st.
Proof.
  intros H. apply has_match_false in H as (H1 & H2 & H3).
  destruct st as [score matches]. unfold interest_step.
  rewrite topic_fields_checks. cbv zeta. fold (other_text post).
  rewrite H1, H2, H3. reflexivity.
Qed.

Lemma interest_loop_no_match self post ts st :
  List.filter (has_match post) ts = [] ->
  for_each ts
    (interest_step self (VStr (text_field post "title"))
       (VStr (text_field post "ai_summary"))
       (join " " (list_field post "key_points"))
       (VStr (text_field post "significance"))) st
  = Ok st.
Proof.
  induction ts as [|t ts IH]; [reflexivity|].
  cbn [List.filter for_each]. destruct (has_match post t) eqn:E; [discriminate|].
  intros H. rewrite (interest_step_no_match _ _ _ _ E), bind_ret. auto.
Qed.

(** X10. A document that no exclusion topic and no interest matches gets
    score 0 and empty match details.  Only [exclude_penalty] is read from
    the configuration: no weight, multiplier, topic name or priority is
    looked up, so their absence raises nothing for such a document. *)
Theorem unmatched_document_scores_zero self post penalty :
  document_ok post = true ->
  scoring self !! "exclude_penalty" = Some penalty ->
  penalty < 0 ->
  exclusion_hits self post = [] ->
  List.filter (has_match post) (interests self) = [] ->
  score_post self post = Ok (0, no_matches).
Proof.
  intros Hdoc Hp Hneg Hhits Hnone.
  rewrite (score_post_interest_pass self post _ Hdoc Hp Hneg Hhits).
  apply interest_loop_no_match, Hnone.
Qed.

Lemma interest_step_no_priority self post t st :
  has_match post t = true ->
  priority t = None ->
  interest_step self (VStr (text_field post "title"))
    (VStr (text_field post "ai_summary"))
    (join " " (list_field post "key_points"))
    (VStr (text_field post "significance")) st t
  = Raise (KeyError "priority").
Proof.
  intros Hm Hp. destruct st as [score matches]. unfold interest_step.
  rewrite topic_fields_checks. cbv zeta. fold (other_text post).
  rewrite <- has_match_truthy in Hm. unfold topic_matches_of in Hm.
  unfold field_check. rewrite Hp. cbn [item].
  destruct (Re.findall (pattern t) (text_field post "title")); cbn [truthy];
    [|reflexivity].
  cbn [mbind result_bind].
  destruct (Re.findall (pattern t) (text_field post "ai_summary")); cbn [truthy];
    [|reflexivity].
  cbn [mbind result_bind].
  destruct (Re.findall (pattern t) (other_text post)); [discriminate|].
  reflexivity.
Qed.

(** X12. In the interest pass, the first interest that matches the
    document must have a priority: if it has none, [score_post] raises
    [KeyError('priority')], whatever the interests after it are.
    Interests before it that do not match are not looked at further. *)
Theorem matching_topic_without_priority_raises self post penalty pre t suf :
  document_ok post = true ->
  scoring self !! "exclude_penalty" = Some penalty ->
  penalty < 0 ->
  exclusion_hits self post = [] ->
  interests self = pre ++ t :: suf ->
  List.filter (has_match post) pre = [] ->
  has_match post t = true ->
  priority t = None ->
  score_post self post = Raise (KeyError "priority").
Proof.
  intros Hdoc Hp Hneg Hhits Hi Hpre Hm Hnone.
  rewrite (score_post_interest_pass self post _ Hdoc Hp Hneg Hhits), Hi.
  rewrite for_each_app, (interest_loop_no_match _ _ _ _ Hpre), bind_ret.
  cbn [for_each]. rewrite (interest_step_no_priority _ _ _ _ Hm Hnone).
  reflexivity.
Qed.

(** X13. With at least one exclusion topic configured, a document whose
    title or summary is present but is not a string makes [score_post]
    raise [TypeError]. *)
Theorem non_text_field_raises self post :
  (is_text (post !! "title") && is_text (post !! "ai_summary")) = false ->
  exclude_topics self <> [] ->
  score_post self post = Raise TypeError.
Proof.
  intros Htext Hex. unfold score_post.
  destruct (join_value " " (get post "key_points" (VList []))) as [kp|e] eqn:Ek.
  2:{ unfold join_value in Ek. destruct (get post "key_points" (VList []));
        cbn [mbind result_bind]; congruence. }
  rewrite bind_ret.
  destruct (exclude_topics self) as [|ex exs]; [congruence|].
  cbn [for_each]. unfold exclusion_step at 1. unfold get, is_text in *.
  destruct (post !! "title") as [[]|]; cbn [add mbind result_bind];
    try reflexivity;
    destruct (post !! "ai_summary") as [[]|]; cbn [str_add mbind result_bind];
    try reflexivity; discriminate.
Qed.

End ScoringScoreMade.

Lemma score_is_accounted_witness :
  exists penalty,
    scoring Examples.loaded !! "exclude_penalty" = Some penalty
    /\ 10 = Z.of_nat (length (exclude_matches Examples.robot_matches)) * penalty
            + topic_total (matched_topics Examples.robot_matches).
Proof.
  apply (score_is_accounted Examples.loaded Examples.robot_post).
  reflexivity.
Defined.

Lemma score_breakdown_records_topics_witness :
  (matched_topics Examples.robot_matches = []
   /\ score_breakdown Examples.robot_matches = {[ "exclusion_penalty" := 10 ]})
  \/ score_breakdown Examples.robot_matches
     = breakdown_of (matched_topics Examples.robot_matches).
Proof.
  apply (score_breakdown_records_topics Examples.loaded Examples.robot_post).
  reflexivity.
Defined.

Lemma unmatched_document_scores_zero_witness :
  score_post Examples.loaded Cases.quiet_post = Ok (0, no_matches).
Proof.
  apply (unmatched_document_scores_zero Examples.loaded Cases.quiet_post (-50)).
  - reflexivity.
  - reflexivity.
  - lia.
  - reflexivity.
  - reflexivity.
Defined.

Lemma matching_topic_without_priority_raises_witness :
  score_post Cases.no_priority Examples.robot_post
  = Raise (KeyError "priority").
Proof.
  apply (matching_topic_without_priority_raises Cases.no_priority
           Examples.robot_post (-50) [] Cases.unranked []).
  - reflexivity.
  - reflexivity.
  - lia.
  - reflexivity.
  - reflexivity.
  - reflexivity.
  - reflexivity.
  - reflexivity.
Defined.

Lemma non_text_field_raises_witness :
  score_post Examples.loaded Cases.numbered_post = Raise TypeError.
Proof.
  apply (non_text_field_raises Examples.loaded Cases.numbered_post).
  - reflexivity.
  - vm_compute. discriminate.
Defined.

(** ** Scoring: the model in closed form *)

Section ScoringModelClosedForm.

Context {order : SetOrder}.

Lemma scoring_value_getitem self key :
  well_formed self = true -> key ∈ scoring_keys ->
  getitem (scoring self) key = Ok (scoring_value self key).
Proof.
  intros Hwf Hk. destruct (well_formed_scoring self key Hwf Hk) as [v Hv].
  rewrite Hv. apply getitem_Ok in Hv. unfold scoring_value. rewrite Hv.
  reflexivity.
Qed.

Lemma get_priority_weight_value self p :
  well_formed self = true ->
  _get_priority_weight self p = Ok (weight_of self p).
Proof.
  intros Hwf. unfold _get_priority_weight.
  rewrite !scoring_value_getitem by (auto; set_solver).
  reflexivity.
Qed.

Lemma field_check_value self t found fs acc p s :
  well_formed self = true ->
  priority t = Some p ->
  fs (weight_of self p) = Ok s ->
  (found = [] -> s = 0) ->
  field_check self t found fs acc = Ok (fst acc + s, snd acc ++ found).
Proof.
  intros Hwf Hp Hfs H0. unfold field_check.
  destruct found as [|x found]; cbn [truthy].
  - rewrite (H0 eq_refl), Z.add_0_r, app_nil_r. destruct acc; reflexivity.
  - rewrite Hp. cbn [item]. rewrite bind_ret, get_priority_weight_value by auto.
    rewrite bind_ret, Hfs. reflexivity.
Qed.

Lemma distinct_count_nil : distinct_count [] = 0.
Proof. reflexivity. Qed.

Lemma topic_fields_value self post t p :
  well_formed self = true ->
  document_ok post = true ->
  priority t = Some p ->
  topic_fields self (VStr (text_field post "title"))
    (VStr (text_field post "ai_summary"))
    (join " " (list_field post "key_points"))
    (VStr (text_field post "significance")) t
  = Ok (topic_score_of self post t, topic_matches_of post t).
Proof.
  intros Hwf Hdoc Hp. rewrite topic_fields_checks. cbv zeta.
  fold (other_text post).
  rewrite (field_check_value self t _ _ _ p
             (distinct_count (Re.findall (pattern t) (text_field post "title"))
              * weight_of self p * scoring_value self "title_match_multiplier"));
    auto.
  2:{ rewrite scoring_value_getitem by (auto; set_solver). reflexivity. }
  2:{ intros ->. reflexivity. }
  rewrite bind_ret.
  rewrite (field_check_value self t _ _ _ p
             (distinct_count (Re.findall (pattern t) (text_field post "ai_summary"))
              * weight_of self p * scoring_value self "summary_match_multiplier"));
    auto.
  2:{ rewrite scoring_value_getitem by (auto; set_solver). reflexivity. }
  2:{ intros ->. reflexivity. }
  rewrite bind_ret.
  rewrite (field_check_value self t _ _ _ p
             (distinct_count (Re.findall (pattern t) (other_text post))
              * weight_of self p)); auto.
  2:{ intros ->. reflexivity. }
  cbn [fst snd app]. unfold topic_score_of, topic_matches_of.
  rewrite Hp. cbn [default]. rewrite Z.add_0_l, app_assoc. reflexivity.
Qed.

Lemma topic_score_of_no_match self post t :
  has_match post t = false -> topic_score_of self post t = 0.
Proof.
  rewrite <- has_match_truthy. unfold topic_matches_of, topic_score_of.
  destruct (Re.findall (pattern t) (text_field post "title")); [|discriminate].
  destruct (Re.findall (pattern t) (text_field post "ai_summary")); [|discriminate].
  destruct (Re.findall (pattern t) (other_text post)); [|discriminate].
  intros _. rewrite distinct_count_nil. lia.
Qed.

Lemma interest_step_value self post t score matches name p :
  well_formed self = true ->
  document_ok post = true ->
  topic_name t = Some name ->
  priority t = Some p ->
  interest_step self (VStr (text_field post "title"))
    (VStr (text_field post "ai_summary"))
    (join " " (list_field post "key_points"))
    (VStr (text_field post "significance")) (score, matches) t
  = Ok (score + topic_score_of self post t,
        if has_match post t then
          {| matched_topics :=
               matched_topics matches
               ++ [{| mt_topic := name; mt_priority := p;
                      mt_score := topic_score_of self post t |}];
             matched_keywords :=
               matched_keywords matches
               ++ list_set (topic_matches_of post t);
             exclude_matches := exclude_matches matches;
             score_breakdown :=
               <[name := topic_score_of self post t]> (score_breakdown matches) |}
        else matches).
Proof.
  intros Hwf Hdoc Hn Hp. unfold interest_step.
  rewrite (topic_fields_value self post t p Hwf Hdoc Hp), bind_ret.
  cbv beta iota. rewrite has_match_truthy.
  destruct (has_match post t) eqn:Hm.
  - rewrite Hn, Hp. reflexivity.
  - rewrite (topic_score_of_no_match self post t Hm), Z.add_0_r. reflexivity.
Qed.

Lemma interest_loop_value self post ts :
  well_formed self = true ->
  document_ok post = true ->
  Forall (fun t => t ∈ interests self) ts ->
  forall score matches,
  exists matches',
    for_each ts
      (interest_step self (VStr (text_field post "title"))
         (VStr (text_field post "ai_summary"))
         (join " " (list_field post "key_points"))
         (VStr (text_field post "significance"))) (score, matches)
    = Ok (score + sum_list (map (topic_score_of self post) ts), matches')
    /\ map mt_score (matched_topics matches')
       = map mt_score (matched_topics matches)
         ++ map (topic_score_of self post) (List.filter (has_match post) ts).
Proof.
  intros Hwf Hdoc. induction 1 as [|t ts Ht _ IH]; intros score matches.
  - exists matches. cbn [for_each map sum_list foldr List.filter].
    rewrite Z.add_0_r, app_nil_r. auto.
  - destruct (well_formed_interest self t Hwf Ht) as (name & p & Hn & Hp).
    cbn [for_each]. rewrite (interest_step_value self post t _ _ name p) by auto.
    rewrite bind_ret.
    edestruct IH as (matches' & -> & Hs). exists matches'. split.
    + cbn [map sum_list foldr]. fold (sum_list (map (topic_score_of self post) ts)).
      f_equal. f_equal. lia.
    + rewrite Hs. cbn [List.filter]. destruct (has_match post t).
      * cbn [matched_topics]. rewrite map_app, <- app_assoc. reflexivity.
      * reflexivity.
Qed.

(** X9. The scoring model in closed form.  With a configuration that has
    every key the scoring code reads, a negative penalty and a document no
    exclusion topic fires on, the score is the sum over all interests of
    (distinct title matches * weight * title multiplier) + (distinct
    summary matches * weight * summary multiplier) + (distinct matches in
    key points and significance * weight), and the scores recorded in
    [matched_topics] are these terms for the interests that match, in
    configuration order. *)
Theorem score_formula self post :
  well_formed self = true ->
  document_ok post = true ->
  scoring_value self "exclude_penalty" < 0 ->
  exclusion_hits self post = [] ->
  exists matches,
    score_post self post
    = Ok (sum_list (map (topic_score_of self post) (interests self)), matches)
    /\ map mt_score (matched_topics matches)
       = map (topic_score_of self post)
           (List.filter (has_match post) (interests self)).
Proof.
  intros Hwf Hdoc Hneg Hhits.
  assert (Hp : scoring self !! "exclude_penalty"
               = Some (scoring_value self "exclude_penalty")).
  { apply getitem_Ok, scoring_value_getitem; [exact Hwf|set_solver]. }
  rewrite (score_post_interest_pass self post _ Hdoc Hp Hneg Hhits).
  destruct (interest_loop_value self post (interests self) Hwf Hdoc) with
    (score := 0)
    (matches := {| matched_topics := []; matched_keywords := [];
                   exclude_matches := []; score_breakdown := ∅ |})
    as (matches' & H & Hs).
  { apply Forall_forall. auto. }
  exists matches'. rewrite H, Z.add_0_l. split; [reflexivity|exact Hs].
Qed.

(** The early return of [score_post]. *)
Lemma score_post_early_return self post penalty :
  document_ok post = true ->
  scoring self !! "exclude_penalty" = Some penalty ->
  named (exclude_topics self) = true ->
  let total := Z.of_nat (length (exclusion_hits self post)) * penalty in
  total <= penalty ->
  score_post self post
  = Ok (total,
        {| matched_topics := [];
           matched_keywords := [];
           exclude_matches := omap topic_name (exclusion_hits self post);
           score_breakdown := {[ "exclusion_penalty" := total ]} |}).
Proof.
  intros Hdoc Hp Hn total Hle.
  destruct (document_fields post Hdoc) as (Ht & Hs & Hk & Hg).
  unfold score_post. rewrite Ht, Hs, Hk, bind_ret.
  rewrite (exclusion_loop self _ _ penalty _ 0 _ Hp Hn), bind_ret.
  cbv beta iota zeta.
  fold (exclusion_text post). fold (exclusion_hits self post).
  rewrite Z.add_0_l. fold total.
  rewrite (proj2 (getitem_Ok _ _ _) Hp), bind_ret.
  apply Z.leb_le in Hle. rewrite Hle.
  cbn [matched_topics matched_keywords exclude_matches score_breakdown app].
  rewrite insert_empty. reflexivity.
Qed.

(** X11. With an [exclude_penalty] that is not negative, a document on
    which no exclusion topic fires takes the early return: the test
    [score <= exclude_penalty] holds for the initial score 0, so the
    interests are never scored and the result is score 0 with
    [score_breakdown] holding only ['exclusion_penalty']. *)
Theorem nonnegative_penalty_skips_interests self post penalty :
  document_ok post = true ->
  scoring self !! "exclude_penalty" = Some penalty ->
  0 <= penalty ->
  exclusion_hits self post = [] ->
  score_post self post
  = Ok (0, {| matched_topics := [];
              matched_keywords := [];
              exclude_matches := [];
              score_breakdown := {[ "exclusion_penalty" := 0 ]} |}).
Proof.
  intros Hdoc Hp Hpos Hhits.
  destruct (document_fields post Hdoc) as (Ht & Hs & Hk & Hg).
  unfold score_post. rewrite Ht, Hs, Hk, bind_ret.
  rewrite exclusion_loop_no_hits by exact Hhits.
  rewrite bind_ret. cbv beta iota zeta.
  rewrite (proj2 (getitem_Ok _ _ _) Hp), bind_ret.
  apply Z.leb_le in Hpos. rewrite Hpos.
  cbn [matched_topics matched_keywords exclude_matches score_breakdown].
  rewrite insert_empty. reflexivity.
Qed.

(** X14. An excluded document is never relevant.  With a negative penalty
    below the threshold, a document on which some exclusion topic fires is
    annotated with the penalty times the number of topics that fired as
    its [relevance_score] and with [is_relevant = False]. *)
Theorem excluded_post_is_irrelevant self post penalty threshold :
  document_ok post = true ->
  scoring self !! "exclude_penalty" = Some penalty ->
  scoring self !! "minimum_score_threshold" = Some threshold ->
  penalty < 0 ->
  penalty < threshold ->
  named (exclude_topics self) = true ->
  exclusion_hits self post <> [] ->
  exists a,
    enhanced_post self post = Ok a
    /\ a !! "is_relevant" = Some (VBool false)
    /\ a !! "relevance_score"
       = Some (VNum (Z.of_nat (length (exclusion_hits self post)) * penalty)).
Proof.
  intros Hdoc Hp Ht Hneg Hlt Hn Hhits.
  assert (Hle : Z.of_nat (length (exclusion_hits self post)) * penalty <= penalty).
  { destruct (exclusion_hits self post); [congruence|].
    rewrite length_cons. lia. }
  unfold enhanced_post.
  rewrite (score_post_early_return self post penalty Hdoc Hp Hn Hle), bind_ret.
  cbv beta iota.
  rewrite (proj2 (getitem_Ok _ _ _) Ht), bind_ret.
  eexists. split; [reflexivity|]. split.
  - rewrite lookup_insert_eq. do 2 f_equal. apply Z.leb_gt. lia.
  - rewrite lookup_insert_ne by discriminate.
    rewrite lookup_insert_ne by discriminate.
    rewrite lookup_insert_eq. reflexivity.
Qed.

End ScoringModelClosedForm.

Lemma score_formula_witness :
  exists matches,
    score_post Examples.shared_keyword Examples.robot_post
    = Ok (sum_list (map (topic_score_of Examples.shared_keyword Examples.robot_post)
                      (interests Examples.shared_keyword)), matches)
    /\ map mt_score (matched_topics matches)
       = map (topic_score_of Examples.shared_keyword Examples.robot_post)
           (List.filter (has_match Examples.robot_post)
              (interests Examples.shared_keyword)).
Proof.
  apply (score_formula Examples.shared_keyword Examples.robot_post).
  - reflexivity.
  - reflexivity.
  - reflexivity.
  - reflexivity.
Defined.

Lemma nonnegative_penalty_skips_interests_witness :
  score_post Cases.free_pass Examples.robot_post
  = Ok (0, {| matched_topics := [];
              matched_keywords := [];
              exclude_matches := [];
              score_breakdown := {[ "exclusion_penalty" := 0 ]} |}).
Proof.
  apply (nonnegative_penalty_skips_interests Cases.free_pass
           Examples.robot_post 0).
  - reflexivity.
  - reflexivity.
  - lia.
  - reflexivity.
Defined.

Lemma excluded_post_is_irrelevant_witness :
  exists a,
    enhanced_post Examples.loaded Examples.kardashian_post = Ok a
    /\ a !! "is_relevant" = Some (VBool false)
    /\ a !! "relevance_score"
       = Some (VNum (Z.of_nat (length (exclusion_hits Examples.loaded
                                         Examples.kardashian_post)) * -50)).
Proof.
  apply (excluded_post_is_irrelevant Examples.loaded Examples.kardashian_post
           (-50) 3).
  - reflexivity.
  - reflexivity.
  - reflexivity.
  - lia.
  - lia.
  - reflexivity.
  - vm_compute. discriminate.
Defined.

(** ** Ranking: failure, repetition and input order *)

Section RankingFailureRepetitionInput.

Context {order : SetOrder}.

Lemma collect_Raise {A B} (f : A -> result B) xs e :
  collect f xs = Raise e
  <-> exists pre x suf,
        xs = pre ++ x :: suf
        /\ Forall (fun x => returns (f x)) pre
        /\ f x = Raise e.
Proof.
  induction xs as [|x xs IH].
  - split; [discriminate|].
    intros (pre & y & suf & H & _). destruct pre; discriminate.
  - destruct (f x) as [y|e'] eqn:Ex.
    + assert (Hc : collect f (x :: xs) = Raise e <-> collect f xs = Raise e).
      { cbn [collect]. rewrite Ex, bind_ret.
        destruct (collect f xs); cbn [mbind result_bind]; split; congruence. }
      rewrite Hc, IH. split.
      * intros (pre & x0 & suf & -> & Hpre & Hx0).
        exists (x :: pre), x0, suf. repeat split; auto.
        constructor; [eexists; eauto|exact Hpre].
      * intros (pre & x0 & suf & H & Hpre & Hx0).
        destruct pre as [|p pre]; cbn [app] in H; injection H as -> ->.
        -- congruence.
        -- apply Forall_cons in Hpre as [_ Hpre]. exists pre, x0, suf. auto.
    + cbn [collect]. rewrite Ex. cbn [mbind result_bind]. split.
      * intros [= ->]. exists [], x, xs. repeat split; auto.
      * intros (pre & x0 & suf & H & Hpre & Hx0).
        destruct pre as [|p pre]; cbn [app] in H; injection H as -> ->.
        -- congruence.
        -- apply Forall_cons in Hpre as [[y Hy] _]. congruence.
Qed.

Lemma collect_keys self posts annotated :
  Forall2 (fun post a => enhanced_post self post = Ok a) posts annotated ->
  collect relevance_score_key annotated
  = Ok (map relevance_score_of annotated).
Proof.
  induction 1 as [|p a ps az Hpa _ IH]; [reflexivity|].
  cbn [collect map]. rewrite (enhanced_post_key _ _ _ Hpa), bind_ret, IH.
  reflexivity.
Qed.

(** X15. [filter_posts] raises exactly when one of the posts cannot be
    scored and annotated, and then with the exception of the first such
    post in input order; no partial ranking is returned.  Once every post
    is annotated, sorting cannot fail. *)
Theorem filter_posts_fails_on_first_bad_post self posts e :
  filter_posts self posts = Raise e
  <-> exists pre post suf,
        posts = pre ++ post :: suf
        /\ Forall (fun p => returns (enhanced_post self p)) pre
        /\ enhanced_post self post = Raise e.
Proof.
  rewrite <- collect_Raise. unfold filter_posts.
  destruct (collect (enhanced_post self) posts) as [annotated|e'] eqn:E;
    cbn [mbind result_bind]; [|reflexivity].
  apply collect_Forall2 in E. rewrite (collect_keys _ _ _ E).
  cbn [mbind result_bind]. split; discriminate.
Qed.

Lemma score_post_ext self post post' :
  (forall key, key ∈ scored_keys -> post !! key = post' !! key) ->
  score_post self post = score_post self post'.
Proof.
  intros H. unfold score_post, get.
  rewrite !H by (unfold scored_keys; set_solver). reflexivity.
Qed.

Lemma enhanced_post_fixed self post a :
  enhanced_post self post = Ok a -> enhanced_post self a = Ok a.
Proof.
  intros H. apply enhanced_post_inv in H as (score & matches & thr & Hs & Ht & ->).
  unfold enhanced_post.
  rewrite (score_post_ext self _ post), Hs.
  2:{ intros key Hk.
      assert (Hne : key <> "is_relevant" /\ key <> "relevance_matches"
                    /\ key <> "relevance_score").
      { unfold scored_keys in Hk.
        repeat (apply elem_of_cons in Hk as [->|Hk]; [repeat split; discriminate|]).
        apply elem_of_nil in Hk as []. }
      destruct Hne as (? & ? & ?). rewrite !lookup_insert_ne by auto.
      reflexivity. }
  rewrite bind_ret. cbv beta iota.
  rewrite (proj2 (getitem_Ok _ _ _) Ht), bind_ret. f_equal.
  match goal with |- _ = ?rhs => set (a := rhs) end.
  rewrite (insert_id a "relevance_score" (VNum score)).
  2:{ subst a. rewrite lookup_insert_ne by discriminate.
      rewrite lookup_insert_ne by discriminate. apply lookup_insert_eq. }
  rewrite (insert_id a "relevance_matches" (VMatches matches)).
  2:{ subst a. rewrite lookup_insert_ne by discriminate. apply lookup_insert_eq. }
  apply insert_id. subst a. apply lookup_insert_eq.
Qed.

Lemma sort_reverse_sorted_id {A} (l : list (Z * A)) :
  StronglySorted descending l -> sort_reverse l = l.
Proof.
  induction 1 as [|x l Hl IH Hx]; [reflexivity|].
  cbn [sort_reverse]. rewrite IH.
  destruct l as [|y l]; [reflexivity|]. cbn [insert_reverse].
  apply Forall_cons in Hx as [Hxy _]. unfold descending in Hxy.
  destruct (fst x <? fst y) eqn:E; [|reflexivity].
  apply Z.ltb_lt in E. lia.
Qed.

Lemma decorate_sorted {A} (key : A -> Z) l :
  StronglySorted (fun a b => key b <= key a) l ->
  StronglySorted descending (decorate key l).
Proof.
  induction 1 as [|x l Hl IH Hx]; [constructor|].
  cbn [decorate map]. constructor; [exact IH|].
  apply Forall_map. eapply Forall_impl; [exact Hx|].
  intros y Hy. exact Hy.
Qed.

(** X16. Ranking a ranking changes nothing: applied to its own output,
    [filter_posts] returns that output, with the same annotations and in
    the same order. *)
Theorem filter_posts_idempotent self posts out :
  filter_posts self posts = Ok out -> filter_posts self out = Ok out.
Proof.
  intros H. apply filter_posts_inv in H as (annotated & Ha & ->).
  set (out := map snd (sort_reverse (decorate relevance_score_of annotated))).
  assert (Hperm : out ≡ₚ annotated) by apply sort_by_key_perm.
  assert (Hfix : Forall2 (fun x y => enhanced_post self x = Ok y) out out).
  { apply Forall2_same_length_lookup. split; [reflexivity|].
    intros i x y Hx Hy. assert (x = y) as <- by congruence.
    assert (Hin : x ∈ annotated).
    { rewrite <- Hperm. eapply list_elem_of_lookup_2; eauto. }
    apply list_elem_of_lookup_1 in Hin as [j Hj].
    destruct (Forall2_lookup_r _ _ _ _ _ Ha Hj) as (post & _ & Hp).
    eapply enhanced_post_fixed; eauto. }
  unfold filter_posts.
  rewrite (Forall2_collect _ _ _ Hfix), bind_ret.
  rewrite (collect_keys _ _ _ Hfix), bind_ret.
  rewrite decorate_zip, sort_reverse_sorted_id; [rewrite snd_decorate; reflexivity|].
  apply decorate_sorted. apply sort_by_key_sorted.
Qed.

Lemma collect_perm {A B} (f : A -> result B) l l' :
  l ≡ₚ l' ->
  forall ys, collect f l = Ok ys ->
  exists ys', collect f l' = Ok ys' /\ ys ≡ₚ ys'.
Proof.
  induction 1 as [|x l l' _ IH|x y l|l l' l'' _ IH1 _ IH2]; intros ys H.
  - exists ys. auto.
  - cbn [collect] in *. apply bind_Ok in H as (z & Hz & H).
    apply bind_Ok in H as (zs & Hzs & H). injection H as <-.
    destruct (IH _ Hzs) as (zs' & -> & Hp). rewrite Hz.
    exists (z :: zs'). split; [reflexivity|]. constructor; exact Hp.
  - cbn [collect] in *. apply bind_Ok in H as (a & Ha & H).
    apply bind_Ok in H as (r & Hr & H). injection H as <-.
    apply bind_Ok in Hr as (b & Hb & Hr).
    apply bind_Ok in Hr as (bs & Hbs & Hr). injection Hr as <-.
    rewrite Hb, Ha, Hbs. exists (b :: a :: bs). split; [reflexivity|].
    apply Permutation_swap.
  - destruct (IH1 _ H) as (ys' & H' & Hp).
    destruct (IH2 _ H') as (ys'' & H'' & Hp').
    exists ys''. split; [exact H''|]. etransitivity; eauto.
Qed.

#[local] Instance ge_antisym : AntiSymm (=) (fun a b : Z => b <= a).
Proof. intros a b ? ?. lia. Qed.

Lemma ranked_scores self posts out :
  filter_posts self posts = Ok out ->
  StronglySorted (fun a b : Z => b <= a) (map relevance_score_of out).
Proof.
  intros H. apply filter_posts_inv in H as (annotated & _ & ->).
  eapply (StronglySorted_fmap (B := Z)); [|apply sort_by_key_sorted].
  intros x y Hxy. exact Hxy.
Qed.

(** X17. The ranking does not depend on the order of the input posts,
    except for the order among posts of equal score: for a reordered
    input [filter_posts] returns the same annotated posts, and the
    sequence of scores down the ranking is the same. *)
Theorem filter_posts_permutation self posts posts' out :
  posts ≡ₚ posts' ->
  filter_posts self posts = Ok out ->
  exists out',
    filter_posts self posts' = Ok out'
    /\ out' ≡ₚ out
    /\ map relevance_score_of out' = map relevance_score_of out.
Proof.
  intros Hperm H. pose proof (ranked_scores _ _ _ H) as Hs.
  apply filter_posts_inv in H as (annotated & Ha & ->).
  apply Forall2_collect in Ha.
  destruct (collect_perm _ _ _ Hperm _ Ha) as (annotated' & Ha' & Hp).
  set (out' := map snd (sort_reverse (decorate relevance_score_of annotated'))).
  assert (H' : filter_posts self posts' = Ok out').
  { unfold filter_posts. rewrite Ha', bind_ret.
    apply collect_Forall2 in Ha'.
    rewrite (collect_keys _ _ _ Ha'), bind_ret, decorate_zip. reflexivity. }
  exists out'. split; [exact H'|].
  assert (Hpo : out' ≡ₚ map snd (sort_reverse (decorate relevance_score_of annotated))).
  { unfold out'. rewrite !sort_by_key_perm. symmetry. exact Hp. }
  split; [exact Hpo|].
  apply (StronglySorted_unique (fun a b : Z => b <= a)).
  - exact (ranked_scores _ _ _ H').
  - exact Hs.
  - apply Permutation_map. exact Hpo.
Qed.

End RankingFailureRepetitionInput.

Lemma filter_posts_fails_on_first_bad_post_witness :
  filter_posts Examples.loaded
    [Examples.robot_post; Cases.numbered_post; Examples.robot_post_2]
  = Raise TypeError.
Proof.
  apply (proj2 (filter_posts_fails_on_first_bad_post Examples.loaded _ TypeError)).
  exists [Examples.robot_post], Cases.numbered_post, [Examples.robot_post_2].
  split; [reflexivity|]. split; [|reflexivity].
  repeat constructor. eexists. reflexivity.
Defined.

Lemma filter_posts_idempotent_witness :
  filter_posts Examples.loaded Examples.ranked = Ok Examples.ranked.
Proof.
  apply (filter_posts_idempotent Examples.loaded Examples.three_posts).
  reflexivity.
Defined.

Lemma filter_posts_permutation_witness :
  exists out',
    filter_posts Examples.loaded Cases.swapped_posts = Ok out'
    /\ out' ≡ₚ Examples.ranked
    /\ map relevance_score_of out' = map relevance_score_of Examples.ranked.
Proof.
  apply (filter_posts_permutation Examples.loaded Examples.three_posts).
  - apply perm_swap.
  - reflexivity.
Defined.

(** ** The relevant posts *)

Section RelevantPosts.

Context {order : SetOrder}.

Lemma enhanced_post_flag self post a :
  enhanced_post self post = Ok a ->
  a !! "is_relevant"
  = Some (VBool (scoring_value self "minimum_score_threshold"
                 <=? relevance_score_of a)).
Proof.
  intros H. apply enhanced_post_inv in H as (score & matches & thr & _ & Ht & ->).
  unfold scoring_value, relevance_score_of. rewrite Ht. cbn [default].
  rewrite lookup_insert_eq.
  rewrite lookup_insert_ne by discriminate.
  rewrite lookup_insert_ne by discriminate.
  rewrite lookup_insert_eq. reflexivity.
Qed.

Lemma select_relevant_flagged self l :
  Forall (fun a => exists post, enhanced_post self post = Ok a) l ->
  select_relevant l = Ok (above_threshold self l).
Proof.
  induction 1 as [|a l [post Ha] _ IH]; [reflexivity|].
  cbn [select_relevant]. unfold getitem.
  rewrite (enhanced_post_flag _ _ _ Ha), bind_ret, IH, bind_ret.
  cbn [truth above_threshold List.filter].
  destruct (_ <=? _); reflexivity.
Qed.

Lemma filter_posts_elements self posts out :
  filter_posts self posts = Ok out ->
  Forall (fun a => exists post, enhanced_post self post = Ok a) out.
Proof.
  intros H. apply filter_posts_inv in H as (annotated & Ha & ->).
  apply Forall_forall. intros a Hin.
  rewrite sort_by_key_perm in Hin.
  apply list_elem_of_lookup_1 in Hin as [j Hj].
  destruct (Forall2_lookup_r _ _ _ _ _ Ha Hj) as (post & _ & Hp). eauto.
Qed.

Lemma select_relevant_ranked self posts out :
  filter_posts self posts = Ok out ->
  select_relevant out = Ok (above_threshold self out).
Proof.
  intros H. eapply select_relevant_flagged, filter_posts_elements, H.
Qed.

(** X18. [get_relevant_posts] returns the posts of the ranking whose
    score reaches [minimum_score_threshold], in ranking order; it fails
    only if [filter_posts] fails. *)
Theorem get_relevant_posts_above_threshold self posts out :
  filter_posts self posts = Ok out ->
  get_relevant_posts self posts = Ok (above_threshold self out).
Proof.
  intros H. unfold get_relevant_posts. rewrite H, bind_ret.
  exact (select_relevant_ranked _ _ _ H).
Qed.

Lemma sorted_split (f : gmap string value -> Z) thr l :
  StronglySorted (fun a b => f b <= f a) l ->
  l = List.filter (fun d => thr <=? f d) l
      ++ List.filter (fun d => f d <? thr) l.
Proof.
  induction 1 as [|a l Hl IH Ha]; [reflexivity|].
  cbn [List.filter]. destruct (thr <=? f a) eqn:E.
  - apply Z.leb_le in E. assert ((f a <? thr) = false) as -> by (apply Z.ltb_ge; lia).
    cbn [app]. f_equal. exact IH.
  - apply Z.leb_gt in E. assert ((f a <? thr) = true) as -> by (apply Z.ltb_lt; lia).
    assert (Hnone : List.filter (fun d => thr <=? f d) l = []).
    { clear IH Hl. induction l as [|b l IHl]; [reflexivity|].
      apply Forall_cons in Ha as [Hb Ha]. cbn [List.filter].
      assert ((thr <=? f b) = false) as -> by (apply Z.leb_gt; lia). auto. }
    assert (Hall : List.filter (fun d => f d <? thr) l = l).
    { clear IH Hl Hnone. induction l as [|b l IHl]; [reflexivity|].
      apply Forall_cons in Ha as [Hb Ha]. cbn [List.filter].
      assert ((f b <? thr) = true) as -> by (apply Z.ltb_lt; lia).
      f_equal. auto. }
    rewrite Hnone, Hall. reflexivity.
Qed.

(** X19. The relevant posts are the head of the ranking: the output of
    [filter_posts] is the output of [get_relevant_posts] followed by the
    posts whose score is below the threshold. *)
Theorem relevant_posts_head_the_ranking self posts out :
  filter_posts self posts = Ok out ->
  exists relevant,
    get_relevant_posts self posts = Ok relevant
    /\ out = relevant ++ below_threshold self out
    /\ relevant = take (length relevant) out.
Proof.
  intros H. exists (above_threshold self out).
  split.
  { unfold get_relevant_posts. rewrite H, bind_ret.
    exact (select_relevant_ranked _ _ _ H). }
  assert (Hsplit : out = above_threshold self out ++ below_threshold self out).
  { apply sorted_split.
    apply filter_posts_inv in H as (annotated & _ & ->).
    apply sort_by_key_sorted. }
  split; [exact Hsplit|].
  transitivity (take (length (above_threshold self out))
                  (above_threshold self out ++ below_threshold self out)).
  - rewrite take_app_length. reflexivity.
  - f_equal. symmetry. exact Hsplit.
Qed.

End RelevantPosts.

Lemma get_relevant_posts_above_threshold_witness :
  get_relevant_posts Examples.loaded Examples.three_posts
  = Ok (above_threshold Examples.loaded Examples.ranked).
Proof.
  apply get_relevant_posts_above_threshold. reflexivity.
Defined.

Lemma relevant_posts_head_the_ranking_witness :
  exists relevant,
    get_relevant_posts Examples.loaded Examples.three_posts = Ok relevant
    /\ Examples.ranked = relevant ++ below_threshold Examples.loaded Examples.ranked
    /\ relevant = take (length relevant) Examples.ranked.
Proof.
  apply relevant_posts_head_the_ranking. reflexivity.
Defined.

(** ** Loading, and the entry point of [main.py] *)

Section LoadingEntryPoint.

Context {order : SetOrder}.

Lemma collect_compile_topic_inv raws ts :
  collect compile_topic raws = Ok ts ->
  raws = map raw_of ts
  /\ Forall (fun t => pattern t = Re.compile (keywords t)) ts.
Proof.
  revert ts. induction raws as [|raw raws IH]; intros ts H; cbn [collect] in H.
  - injection H as <-. split; [reflexivity|constructor].
  - apply bind_Ok in H as (t & Ht & H). apply bind_Ok in H as (ts' & Hts & H).
    injection H as <-. destruct (IH _ Hts) as [-> Hpat].
    unfold compile_topic in Ht. apply bind_Ok in Ht as (kws & Hk & Ht).
    injection Ht as <-. destruct raw as [n p [k|]]; [|discriminate].
    cbn [rt_keywords item] in Hk. injection Hk as ->.
    split; [reflexivity|]. constructor; [reflexivity|exact Hpat].
Qed.

Lemma init_Ok_inv config self :
  __init__ (Parsed config) = Ok self ->
  rc_interests config = Some (map raw_of (interests self))
  /\ default [] (rc_exclude_topics config) = map raw_of (exclude_topics self)
  /\ rc_scoring config = Some (scoring self)
  /\ Forall (fun t => pattern t = Re.compile (keywords t))
       (interests self ++ exclude_topics self).
Proof.
  cbn [__init__]. intros H.
  apply bind_Ok in H as (ins & Hi & H). apply bind_Ok in H as (sc & Hs & H).
  apply bind_Ok in H as ([cins cexs] & Hc & H). injection H as <-.
  cbn [interests exclude_topics scoring].
  unfold _compile_patterns in Hc.
  apply bind_Ok in Hc as (cins' & Hci & Hc).
  apply bind_Ok in Hc as (cexs' & Hce & Hc). injection Hc as -> ->.
  apply collect_compile_topic_inv in Hci as [-> Hpi].
  apply collect_compile_topic_inv in Hce as [He Hpe].
  destruct (rc_interests config) as [i|]; [|discriminate]. injection Hi as ->.
  destruct (rc_scoring config) as [s|]; [|discriminate]. injection Hs as ->.
  repeat split; auto. apply Forall_app. auto.
Qed.

(** X1. When [__init__] succeeds the filter holds the configuration as it was
    read: the interests and the exclusion topics are those of the file, in
    the same order and with the same name, priority and keyword list (an
    absent [exclude_topics] gives the empty list), [scoring] is the
    [scoring] dictionary of the file, and the pattern stored in every topic
    is the one compiled from that topic's own keywords. *)
Theorem init_keeps_configuration config self :
  __init__ (Parsed config) = Ok self ->
  rc_interests config = Some (map raw_of (interests self))
  /\ default [] (rc_exclude_topics config) = map raw_of (exclude_topics self)
  /\ rc_scoring config = Some (scoring self)
  /\ Forall (fun t => pattern t = Re.compile (keywords t))
       (interests self ++ exclude_topics self).
Proof. exact (init_Ok_inv config self). Qed.

(** X6. [_get_priority_weight] builds the whole mapping before it looks
    the priority up: it returns exactly when the three weights
    [high_priority_weight], [medium_priority_weight] and
    [low_priority_weight] are all configured, whatever the priority asked
    for; when it returns, the result is the weight of the level, and 1 for
    any other priority. *)
Theorem priority_weight_needs_all_weights self p :
  (returns (_get_priority_weight self p)
   <-> forallb (has_key (scoring self)) weight_keys = true)
  /\ (forall w, _get_priority_weight self p = Ok w -> w = weight_of self p).
Proof.
  unfold _get_priority_weight, weight_of, scoring_value, getitem, has_key,
    weight_keys, returns.
  cbn [forallb].
  destruct (scoring self !! "high_priority_weight") as [h|];
    destruct (scoring self !! "medium_priority_weight") as [m|];
    destruct (scoring self !! "low_priority_weight") as [l|];
    cbn [mbind result_bind default andb];
    (split; [split; [try (intros [? [=]]); auto|try discriminate; eauto]
            |intros w [=]; auto]).
Qed.


Lemma filter_posts_length self posts out :
  filter_posts self posts = Ok out -> length out = length posts.
Proof.
  intros H. apply filter_posts_inv in H as (annotated & Ha & ->).
  rewrite sort_by_key_perm. symmetry. eapply Forall2_length, Ha.
Qed.

(** X20. [filter_posts] of [main.py] returns the whole ranking, one entry
    per input post, the irrelevant ones included; the number of relevant
    posts it prints is the number of posts whose score reaches the
    threshold, and the total it prints is the number of input posts. *)
Theorem main_filter_posts_whole_ranking posts config_file self filtered :
  __init__ config_file = Ok self ->
  filter_posts self posts = Ok filtered ->
  main_filter_posts posts config_file
  = Ok (filtered, (length (above_threshold self filtered), length posts))
  /\ length filtered = length posts
  /\ (length (above_threshold self filtered) <= length posts)%nat.
Proof.
  intros Hinit H. unfold main_filter_posts.
  rewrite Hinit, bind_ret, H, bind_ret.
  rewrite (select_relevant_ranked _ _ _ H).
  rewrite bind_ret. split; [reflexivity|].
  pose proof (filter_posts_length _ _ _ H) as Hl. split; [exact Hl|].
  rewrite <- Hl. unfold above_threshold. apply List.filter_length_le.
Qed.

End LoadingEntryPoint.

Lemma init_keeps_configuration_witness :
  rc_interests Examples.config = Some (map raw_of (interests Examples.loaded))
  /\ default [] (rc_exclude_topics Examples.config)
     = map raw_of (exclude_topics Examples.loaded)
  /\ rc_scoring Examples.config = Some (scoring Examples.loaded)
  /\ Forall (fun t => pattern t = Re.compile (keywords t))
       (interests Examples.loaded ++ exclude_topics Examples.loaded).
Proof.
  apply init_keeps_configuration. reflexivity.
Defined.

Lemma priority_weight_needs_all_weights_witness :
  5 = weight_of Examples.loaded "high".
Proof.
  apply (proj2 (priority_weight_needs_all_weights Examples.loaded "high")).
  reflexivity.
Defined.


Lemma main_filter_posts_whole_ranking_witness :
  main_filter_posts Examples.three_posts (Parsed Examples.config)
  = Ok (Examples.ranked,
        (length (above_threshold Examples.loaded Examples.ranked),
         length Examples.three_posts))
  /\ length Examples.ranked = length Examples.three_posts
  /\ (length (above_threshold Examples.loaded Examples.ranked)
      <= length Examples.three_posts)%nat.
Proof.
  apply main_filter_posts_whole_ranking; reflexivity.
Defined.
